(** * Checklist (STIG .ckl) to HDF conversion: the checklist mapper

    A shallow embedding of [checklist-mapper.ts] of heimdall2's
    hdf-converters library: the four transformer functions
    ([transformImpact], [findSeverity], [getStatus], [parseFindingDetails])
    and the multi-STIG aggregation of [ChecklistResults.toHdf].

    Conventions.
    - A JavaScript string is a [string].  The words the code compares
      with are ASCII and without a [k], the one ASCII letter that a
      character outside ASCII folds to, so [toLowerCase] folds [A]-[Z]
      and leaves every other character.
    - A number literal of the source ([0.7], [0.5], [0.3], [0.0]) is the
      rational it denotes, in [Q].
    - A value that may be [undefined] or [null] is a [field].
    - A JavaScript exception is the [Throw] branch of [result].
    - Objects that the code mutates in place after they were handed out
      (profiles, the execution record) live in an explicit heap.
      Controls are not written once built, so a profile holds them by
      value: that the parent shares the control objects of its children
      cannot be observed.
    - [BaseConverter] (base-converter.ts) is not among the sources.
      [ChecklistResults.toHdf] takes the conversion it calls first as a
      parameter; that conversion is modelled apart, from the spec. *)

From Stdlib Require Import String Ascii ZArith QArith List Bool Lia.
From stdpp Require Import base list.
Import ListNotations.

Local Open Scope string_scope.
Local Open Scope Z_scope.
Local Open Scope list_scope.

(** ** JavaScript values and strings *)

Module JS.

(** [undefined], [null], or a value. *)
Inductive field (A : Type) : Type :=
| undefined
| null
| value (a : A).
Arguments undefined {A}.
Arguments null {A}.
Arguments value {A} a.

(** Truthiness of a string-valued field: [undefined], [null] and the
    empty string are falsy. *)
Definition truthy (f : field string) : bool :=
  match f with
  | value (String _ _) => true
  | _ => false
  end.

(** Exceptions and the results of code that may throw. *)
Inductive exn : Type :=
| TypeError    (* property access on undefined *)
| BadReference (* a location that holds no object of the expected kind;
                  never produced by a run from a well-formed heap *).

Inductive result (A : Type) : Type :=
| Ok (a : A)
| Throw (e : exn).
Arguments Ok {A} a.
Arguments Throw {A} e.

Definition bind {A B} (r : result A) (k : A -> result B) : result B :=
  match r with
  | Ok a => k a
  | Throw e => Throw e
  end.

(** The line feed, [\n]. *)
Definition LF : ascii := "010"%char.

Definition isUpper (c : ascii) : bool :=
  let n := nat_of_ascii c in (65 <=? n)%nat && (n <=? 90)%nat.

Definition toLowerChar (c : ascii) : ascii :=
  if isUpper c then ascii_of_nat (nat_of_ascii c + 32) else c.

(** [String.prototype.toLowerCase]. *)
Fixpoint toLowerCase (s : string) : string :=
  match s with
  | EmptyString => EmptyString
  | String c s' => String (toLowerChar c) (toLowerCase s')
  end.

(** Equality of two strings up to the case of their letters. *)
Fixpoint eqIgnoreCase (s t : string) : bool :=
  match s, t with
  | EmptyString, EmptyString => true
  | String a s', String b t' =>
      Ascii.eqb (toLowerChar a) (toLowerChar b) && eqIgnoreCase s' t'
  | _, _ => false
  end.

(** [Array.prototype.includes] on an array of strings. *)
Definition includes (l : list string) (x : string) : bool :=
  existsb (String.eqb x) l.

(** [String.prototype.indexOf]: the index of the first occurrence of
    [pat] in [s], or [-1]. *)
Fixpoint indexOfFrom (pat s : string) (i : Z) : Z :=
  if String.prefix pat s then i
  else match s with
       | EmptyString => -1
       | String _ s' => indexOfFrom pat s' (i + 1)
       end.

Definition indexOf (s pat : string) : Z := indexOfFrom pat s 0.

(** Relative index of [slice]: a negative index counts from the end,
    and the result is clamped to [0 .. len]. *)
Definition relativeIndex (len i : Z) : Z :=
  if i <? 0 then Z.max (len + i) 0 else Z.min i len.

(** [String.prototype.slice(start, end)]; [end_] is [None] when the
    second argument is omitted. *)
Definition slice (s : string) (start : Z) (end_ : option Z) : string :=
  let len := Z.of_nat (String.length s) in
  let from := relativeIndex len start in
  let to := match end_ with
            | None => len
            | Some e => relativeIndex len e
            end in
  substring (Z.to_nat from) (Z.to_nat (Z.max (to - from) 0)) s.

(** [String.prototype.split(sep)] for a non-empty string separator:
    the pieces between the successive, non-overlapping occurrences of
    [sep], scanned from the left.  [skip] counts the characters of a
    separator that are still to be passed over and [piece] is the
    current piece, reversed. *)
Fixpoint splitFrom (sep : string) (skip : nat) (piece : list ascii)
         (s : string) : list string :=
  match s with
  | EmptyString => [string_of_list_ascii (rev piece)]
  | String c s' =>
      match skip with
      | S k => splitFrom sep k piece s'
      | O =>
          if String.prefix sep s
          then string_of_list_ascii (rev piece)
               :: splitFrom sep (String.length sep - 1) [] s'
          else splitFrom sep O (c :: piece) s'
      end
  end.

Definition split (s sep : string) : list string := splitFrom sep O [] s.

(** [s.split(re, 2)] for the regular expression [re] of the source, a
    line feed followed by one capture group of any characters, under
    the [s] flag; the array is destructured into its first two
    elements.  The pattern matches at the first line feed and, the dot
    matching every character, runs to the end of the string: the array
    is [[before; after]], the capture being the second element.
    Without a line feed the array is [[s]] and the second element of
    the destructuring is [undefined] ([None]). *)
Fixpoint splitFirstLine (s : string) : string * option string :=
  match s with
  | EmptyString => (EmptyString, None)
  | String c s' =>
      if Ascii.eqb c LF then (EmptyString, Some s')
      else let '(first, rest) := splitFirstLine s' in (String c first, rest)
  end.

End JS.
Import JS.

Notation "'do' x <- c1 ; c2" := (JS.bind c1 (fun x => c2))
  (at level 10, x name, c1 at level 100, c2 at level 200).

(** ** The canonical result schema (the parts the checklist mapper builds) *)

(** [ExecJSON.ControlResultStatus]. *)
Inductive ControlResultStatus : Type :=
| Passed
| Failed
| Error
| Skipped.

(** [ExecJSON.ControlResult], with the keys the checklist mapper writes. *)
Record ControlResult : Type := mkControlResult {
  code_desc : field string;
  status : ControlResultStatus;
  message : field string;
  start_time : string
}.

(** [ChecklistVuln], with the fields the mapper reads by name; the fields
    it reads only to copy them into the tags are kept, by name, in
    [otherFields]. *)
Record ChecklistVuln : Type := mkChecklistVuln {
  vuln_status : string;
  severity : string;
  severityoverride : field string;
  findingdetails : field string;
  vulnNum : string;
  ruleTitle : string;
  vulnDiscuss : string;
  checkContent : string;
  fixText : string;
  comments : string;
  groupTitle : string;
  ruleId : string;
  ruleVersion : string;
  cciRefText : string; (* the [cciRef] field *)
  weight : string;
  otherFields : list (string * string)
}.

(** The header of a STIG block and the block itself. *)
Record StigHeader : Type := mkStigHeader {
  header_title : string;
  header_version : string;
  header_description : string;
  header_notice : string
}.

Record ChecklistStig : Type := mkChecklistStig {
  header : StigHeader;
  vulns : list ChecklistVuln
}.

(** [ChecklistObject]: the asset's metadata and the STIG blocks. *)
Record ChecklistObject : Type := mkChecklistObject {
  asset : list (string * string);
  stigs : list ChecklistStig
}.

(** ** Impact scoring *)

(** A value read from the [ImpactMapping] enum object. *)
Inductive jsval : Type :=
| JNumber (q : Q)
| JString (s : string)
| JInherited (key : string) (* a member of [Object.prototype] *)
| JUndefined.

(** The property names every plain object inherits from
    [Object.prototype]. *)
Definition objectPrototypeKeys : list string :=
  [ "constructor"; "__defineGetter__"; "__defineSetter__"; "hasOwnProperty";
    "__lookupGetter__"; "__lookupSetter__"; "isPrototypeOf";
    "propertyIsEnumerable"; "toString"; "valueOf"; "__proto__";
    "toLocaleString" ].

(** [enum ImpactMapping { high = 0.7, medium = 0.5, low = 0.3 }], read by
    key.  A numeric enum is compiled to an object that maps each name to
    its number and each number, as a string, back to its name. *)
Definition ImpactMapping (key : string) : jsval :=
  if String.eqb key "high" then JNumber 0.7
  else if String.eqb key "medium" then JNumber 0.5
  else if String.eqb key "low" then JNumber 0.3
  else if String.eqb key "0.7" then JString "high"
  else if String.eqb key "0.5" then JString "medium"
  else if String.eqb key "0.3" then JString "low"
  else if includes objectPrototypeKeys key then JInherited key
  else JUndefined.

(** The property names of the [ImpactMapping] object, own and inherited. *)
Definition impactMappingKeys : list string :=
  ["high"; "medium"; "low"; "0.7"; "0.5"; "0.3"] ++ objectPrototypeKeys.

Definition findSeverity (vuln : ChecklistVuln) : string :=
  match severityoverride vuln with
  | value (String c s) => String c s
  | _ => severity vuln
  end.

Definition transformImpact (vuln : ChecklistVuln) : jsval :=
  if String.eqb (vuln_status vuln) "Not Applicable" then JNumber 0.0
  else
    let severity := findSeverity vuln in
    ImpactMapping (toLowerCase severity).

(** ** Status classification *)

Definition getStatus (input : string) : ControlResultStatus :=
  let status := toLowerCase input in
  if String.eqb status "notafinding" then Passed
  else if String.eqb status "passed" then Passed
  else if String.eqb status "open" then Failed
  else if String.eqb status "failed" then Failed
  else if String.eqb status "error" then Error
  else Skipped.

(** ** Finding-details re-splitting *)

Definition statusSet : list string := ["passed"; "failed"; "skipped"; "error"].

(** The separator line the checklist export writes between results:
    thirty-two dashes and a line feed. *)
Definition detailsSeparator : string :=
  ("--------------------------------" ++ String LF EmptyString)%string.

(** The marker searched for in the text after the status line. *)
Definition expectedMarker : string := String LF "expected".

(** The object literal pushed for one segment:
    [{code_desc, status, message: message ? message : null, start_time: ''}]. *)
Definition pushedResult (code_desc : string) (status : ControlResultStatus)
           (message : string) : ControlResult :=
  {| code_desc := value code_desc;
     status := status;
     message := if truthy (value message) then value message else null;
     start_time := "" |}.

(** The body of the inner loop: one segment [details] of the finding's
    [code_desc]. *)
Definition parseDetails (finding : ControlResult) (details : string)
  : result ControlResult :=
  let '(findingStatus, descAndMessage) := splitFirstLine details in
  if includes statusSet findingStatus then
    match descAndMessage with
    | None => Throw TypeError (* [descAndMessage.indexOf] on [undefined] *)
    | Some descAndMessage =>
        let indexOfExpected := indexOf descAndMessage expectedMarker in
        if 0 <? indexOfExpected then
          let code_desc :=
            slice descAndMessage 0 (Some (indexOfExpected - 1)) in
          let message := slice descAndMessage indexOfExpected None in
          Ok (pushedResult code_desc (getStatus findingStatus) message)
        else
          Ok (pushedResult descAndMessage (getStatus findingStatus) "")
    end
  else
    Ok (pushedResult details (status finding) "").

(** The inner loop, over the segments of one finding; [results] is the
    array being filled. *)
Fixpoint forEachDetails (finding : ControlResult) (segments : list string)
         (results : list ControlResult) : result (list ControlResult) :=
  match segments with
  | [] => Ok results
  | details :: rest =>
      do r <- parseDetails finding details;
      forEachDetails finding rest (results ++ [r])
  end.

(** The outer loop, over the findings. *)
Fixpoint forEachFinding (findings : list ControlResult)
         (results : list ControlResult) : result (list ControlResult) :=
  match findings with
  | [] => Ok results
  | finding :: rest =>
      match code_desc finding with
      | value (String c s) =>
          do results' <- forEachDetails finding
                           (split (String c s) detailsSeparator) results;
          forEachFinding rest results'
      | _ => forEachFinding rest (results ++ [finding])
      end
  end.

Definition parseFindingDetails (input : list ControlResult)
  : result (list ControlResult) :=
  forEachFinding input [].

(** The results one finding contributes to those of
    [parseFindingDetails]: one per segment of its finding details, in
    their order, or the finding itself when it has none. *)
Definition contributes (f : ControlResult) (rs : list ControlResult) : Prop :=
  match code_desc f with
  | value (String c s) =>
      Forall2 (fun d r => parseDetails f d = Ok r)
              (split (String c s) detailsSeparator) rs
  | _ => rs = [f]
  end.

(** The finding details on which the loop body does not throw: no
    segment is a status word and nothing else.  (Such a segment has no
    line feed, so there is no text after the status line to search.) *)
Definition segmentsParse (details : field string) : bool :=
  match details with
  | value (String c s) =>
      forallb (fun d => negb (includes statusSet d))
              (split (String c s) detailsSeparator)
  | _ => true
  end.

(** The checklists all of whose finding details are such. *)
Definition detailsParse (data : ChecklistObject) : bool :=
  forallb (fun stig =>
             forallb (fun vuln => segmentsParse (findingdetails vuln))
                     (vulns stig))
          (stigs data).


(** ** Controls, profiles and the execution record *)

Record ControlTags : Type := mkControlTags {
  gtitle : string;
  rid : string;
  gid : string;
  stig_id : string;
  cci : list string;
  nist : list string;
  tag_weight : string;
  fullTags : list (string * string)
}.

Record ControlDescription : Type := mkControlDescription {
  data : string;
  label : string
}.

Record Control : Type := mkControl {
  tags : ControlTags;
  title : string;
  id : string;
  desc : string;
  descriptions : list ControlDescription;
  impact : jsval;
  code : string;
  results : list ControlResult
}.

(** An entry of a profile's [depends]: [{name}]. *)
Record Dependency : Type := mkDependency { dep_name : string }.

(** [ExecJSON.Profile].  The keys [supports], [attributes] and [groups]
    are empty arrays in every profile the mapper builds and are left
    out.  A key that a profile does not have is [undefined]. *)
Record Profile : Type := mkProfile {
  name : string;
  version : string;
  profile_title : field string;
  summary : field string;
  license : field string;
  profile_status : field string;
  depends : field (list Dependency);
  controls : list Control;
  sha256 : string;
  parent_profile : field string
}.

Definition set_depends (d : field (list Dependency)) (p : Profile) : Profile :=
  {| name := name p; version := version p; profile_title := profile_title p;
     summary := summary p; license := license p;
     profile_status := profile_status p; depends := d;
     controls := controls p; sha256 := sha256 p;
     parent_profile := parent_profile p |}.

Definition set_controls (c : list Control) (p : Profile) : Profile :=
  {| name := name p; version := version p; profile_title := profile_title p;
     summary := summary p; license := license p;
     profile_status := profile_status p; depends := depends p;
     controls := c; sha256 := sha256 p;
     parent_profile := parent_profile p |}.

Definition set_sha256 (h : string) (p : Profile) : Profile :=
  {| name := name p; version := version p; profile_title := profile_title p;
     summary := summary p; license := license p;
     profile_status := profile_status p; depends := depends p;
     controls := controls p; sha256 := h;
     parent_profile := parent_profile p |}.

Definition set_parent_profile (n : field string) (p : Profile) : Profile :=
  {| name := name p; version := version p; profile_title := profile_title p;
     summary := summary p; license := license p;
     profile_status := profile_status p; depends := depends p;
     controls := controls p; sha256 := sha256 p;
     parent_profile := n |}.

(** A location of the heap. *)
Abbreviation loc := nat (only parsing).

(** [ExecJSON.Execution]: its profiles are references to profile
    objects. *)
Record Execution : Type := mkExecution {
  platform_name : string;
  platform_release : string;
  exec_version : string;
  profiles : list loc;
  passthrough : ChecklistObject
}.

(** ** The heap *)

Inductive object : Type :=
| OProfile (p : Profile)
| OExecution (e : Execution).

Abbreviation heap := (list object) (only parsing).

(** Code that reads and writes the heap and may throw. *)
Definition M (A : Type) : Type := heap -> result (A * heap).

Definition ret {A} (a : A) : M A := fun h => Ok (a, h).

Definition mbind {A B} (m : M A) (k : A -> M B) : M B :=
  fun h => match m h with
           | Ok (a, h') => k a h'
           | Throw e => Throw e
           end.

Notation "'run' x <- c1 ; c2" := (mbind c1 (fun x => c2))
  (at level 10, x name, c1 at level 100, c2 at level 200).

(** The result of code that does not touch the heap. *)
Definition lift {A} (r : result A) : M A :=
  fun h => match r with
           | Ok a => Ok (a, h)
           | Throw e => Throw e
           end.

(** A new object, at the first free location. *)
Definition new (o : object) : M loc :=
  fun h => Ok (List.length h, h ++ [o]).

Definition readProfile (h : heap) (l : loc) : result Profile :=
  match h !! l with
  | Some (OProfile p) => Ok p
  | _ => Throw BadReference
  end.

Definition readExecution (h : heap) (l : loc) : result Execution :=
  match h !! l with
  | Some (OExecution e) => Ok e
  | _ => Throw BadReference
  end.

Definition loadProfile (l : loc) : M Profile :=
  fun h => lift (readProfile h l) h.

Definition loadExecution (l : loc) : M Execution :=
  fun h => lift (readExecution h l) h.

Definition store (l : loc) (o : object) : M unit :=
  fun h => Ok (tt, <[l := o]> h).

(** [for (const x of xs) body(x)] over the heap. *)
Fixpoint forEach {A} (body : A -> M unit) (xs : list A) : M unit :=
  match xs with
  | [] => ret tt
  | x :: rest => run u <- body x; forEach body rest
  end.

(** [xs.map(f)] for an [f] that may throw. *)
Fixpoint mapResult {A B} (f : A -> result B) (xs : list A) : result (list B) :=
  match xs with
  | [] => Ok []
  | x :: rest => do y <- f x; do ys <- mapResult f rest; Ok (y :: ys)
  end.

(** [xs.map(f)] for an [f] that allocates. *)
Fixpoint mapM {A B} (f : A -> M B) (xs : list A) : M (list B) :=
  match xs with
  | [] => ret []
  | x :: rest => run y <- f x; run ys <- mapM f rest; ret (y :: ys)
  end.

(** The execution record at [l] with its profiles read out of the heap:
    what a consumer that serializes the record sees. *)
Record ExecutionValue : Type := mkExecutionValue {
  ev_platform_name : string;
  ev_platform_release : string;
  ev_version : string;
  ev_profiles : list Profile;
  ev_passthrough : ChecklistObject
}.

Definition snapshot (h : heap) (l : loc) : result ExecutionValue :=
  do e <- readExecution h l;
  do ps <- mapResult (readProfile h) (profiles e);
  Ok {| ev_platform_name := platform_name e;
        ev_platform_release := platform_release e;
        ev_version := exec_version e;
        ev_profiles := ps;
        ev_passthrough := passthrough e |}.

(** ** [ChecklistResults.toHdf] *)

(** [cciRef]: the CCI references of a vuln, split on semicolon-space. *)
Definition cciRef (input : string) : list string := split input "; ".

(** The pairs (tag name, vuln field) of the tags transformer. *)
Definition tagPaths : list (string * string) :=
  [ ("ia_controls", "iaControls");
    ("legacy_id", "legacyId");
    ("false_positives", "falsePositives");
    ("false_negatives", "falseNegatives");
    ("mitigations", "mitigations");
    ("mitigation_controls", "mitigationControl");
    ("potential_impact", "potentialImpact");
    ("responsibility", "responsibility");
    ("stig_ref", "stigRef");
    ("security_override_guidance", "securityOverrideGuidance");
    ("severity_justification", "severityJustification") ].

(** [_.get(record, path)] on the by-name fields of a vuln. *)
Fixpoint get (fields : list (string * string)) (path : string) : field string :=
  match fields with
  | [] => undefined
  | (k, v) :: rest => if String.eqb k path then value v else get rest path
  end.

(** The tags transformer: the non-empty fields of [tagPaths], except the
    bare separator. *)
Definition extraTags (input : ChecklistVuln) : list (string * string) :=
  flat_map (fun '(key, path) =>
              match get (otherFields input) path with
              | value tagValue =>
                  if truthy (value tagValue) && negb (String.eqb tagValue "; ")
                  then [(key, tagValue)] else []
              | _ => []
              end) tagPaths.

(** The sole element of the [results] mapping before its array
    transformer runs: [{status, code_desc, start_time: ''}]. *)
Definition rawResult (vuln : ChecklistVuln) : ControlResult :=
  {| code_desc := findingdetails vuln;
     status := getStatus (vuln_status vuln);
     message := undefined;
     start_time := "" |}.

Definition parentProfileName : string := "Parent Profile".

(** [this] of [ChecklistResults]: the XML text and the domain object
    built from it by the constructor. *)
Record ChecklistResults : Type := mkChecklistResults {
  checklistXml : string;
  checklistObject : ChecklistObject
}.

(** [parent_profile.depends?.push({name})]. *)
Definition pushDepends (n : string) (p : Profile) : Profile :=
  match depends p with
  | value ds => set_depends (value (ds ++ [ {| dep_name := n |} ])) p
  | _ => p
  end.

Definition pushProfile (l : loc) (e : Execution) : Execution :=
  {| platform_name := platform_name e;
     platform_release := platform_release e;
     exec_version := exec_version e;
     profiles := profiles e ++ [l];
     passthrough := passthrough e |}.

Section ChecklistResults.

(** The package version, the hash function and [JSON.stringify] on a
    profile. *)
Variable HeimdallToolsVersion : string.
Variable generateHash : string -> string.
Variable stringifyProfile : Profile -> string.

(** [new ChecklistMapper(checklistObject).toHdf()]: the conversion that
    [ChecklistMapper] inherits from [BaseConverter], which is not among
    the sources. *)
Variable ChecklistMapper_toHdf : ChecklistObject -> M loc.

(** The body of the loop of [toHdf] over [original.profiles]. *)
Definition aggregate (parent_profile profile : loc) : M unit :=
  (* parent_profile.depends?.push({name: profile.name}) *)
  run parent <- loadProfile parent_profile;
  run p <- loadProfile profile;
  run u <- store parent_profile (OProfile (pushDepends (name p) parent));
  (* parent_profile.controls.push(...profile.controls) *)
  run parent <- loadProfile parent_profile;
  run p <- loadProfile profile;
  run u <- store parent_profile
             (OProfile (set_controls (controls parent ++ controls p) parent));
  (* profile.parent_profile = parentProfileName *)
  run p <- loadProfile profile;
  run u <- store profile
             (OProfile (set_parent_profile (value parentProfileName) p));
  (* profile.sha256 = generateHash(JSON.stringify(profile)) *)
  run p <- loadProfile profile;
  store profile
    (OProfile (set_sha256 (generateHash (stringifyProfile p)) p)).

Definition toHdf (this : ChecklistResults) : M loc :=
  let numberOfStigs := List.length (stigs (checklistObject this)) in
  if (numberOfStigs =? 1)%nat then
    ChecklistMapper_toHdf (checklistObject this)
  else
    run original <- ChecklistMapper_toHdf (checklistObject this);
    run parent_profile <-
      new (OProfile {| name := parentProfileName;
                       version := HeimdallToolsVersion;
                       profile_title := undefined;
                       summary := undefined;
                       license := undefined;
                       profile_status := undefined;
                       depends := value [];
                       controls := [];
                       sha256 := "";
                       parent_profile := undefined |});
    run o <- loadExecution original;
    run u <- forEach (aggregate parent_profile) (profiles o);
    run parent <- loadProfile parent_profile;
    run u <- store parent_profile
               (OProfile (set_sha256 (generateHash (stringifyProfile parent))
                                     parent));
    run o <- loadExecution original;
    run u <- store original (OExecution (pushProfile parent_profile o));
    ret original.

(** *** What the loop computes, as functions on values *)

(** A child profile after [aggregate]: the parent's name is assigned,
    then the hash of the profile so changed. *)
Definition adoptedProfile (p : Profile) : Profile :=
  let p' := set_parent_profile (value parentProfileName) p in
  set_sha256 (generateHash (stringifyProfile p')) p'.

(** The parent profile with the given dependencies, controls and
    hash. *)
Definition parentWith (ds : list Dependency) (cs : list Control)
           (sha : string) : Profile :=
  {| name := parentProfileName;
     version := HeimdallToolsVersion;
     profile_title := undefined;
     summary := undefined;
     license := undefined;
     profile_status := undefined;
     depends := value ds;
     controls := cs;
     sha256 := sha;
     parent_profile := undefined |}.

Definition dependencyOn (p : Profile) : Dependency :=
  {| dep_name := name p |}.

(** The parent profile of the given children, hashed. *)
Definition parentOf (children : list Profile) : Profile :=
  let filled := parentWith (map dependencyOn children)
                           (concat (map controls children)) "" in
  set_sha256 (generateHash (stringifyProfile filled)) filled.

End ChecklistResults.

(** The record at [l] is an execution record whose profiles are
    distinct profile objects, holding [ps]. *)
Definition holdsRecord (h : heap) (l : loc) (e : Execution)
           (ps : list Profile) : Prop :=
  h !! l = Some (OExecution e)
  /\ NoDup (profiles e)
  /\ Forall2 (fun l' p => h !! l' = Some (OProfile p)) (profiles e) ps.

(** ** The checklist mapper *)

Section ChecklistMapper.

(** The collaborators of the mapper that are not part of it: the
    package version, the hash function, [JSON.stringify] on the values
    it is applied to, and the CCI to NIST table with its filter. *)
Variable HeimdallToolsVersion : string.
Variable generateHash : string -> string.
Variable stringifyControls : list Control -> string.
Variable stringifyVuln : ChecklistVuln -> string.
Variable nistFilter : list string -> list string -> list string.
Variable DEFAULT_STATIC_CODE_ANALYSIS_NIST_TAGS : list string.

Definition nistTag (input : string) : list string :=
  let identifiers := cciRef input in
  nistFilter identifiers DEFAULT_STATIC_CODE_ANALYSIS_NIST_TAGS.

(** Modelled from the spec: the evaluation, by the mapping engine of
    base-converter.ts (not among the sources), of the per-item
    specification of [controls] in [ChecklistMapper.mappings] on one
    vuln.  A leaf with a path is the field at that path; a transformer
    is applied to the field, or to the whole vuln when there is no path;
    the array transformer of [results] is applied to the whole array;
    a transformer that throws makes the conversion throw. *)
Definition mapControl (vuln : ChecklistVuln) : result Control :=
  do rs <- parseFindingDetails [rawResult vuln];
  Ok {| tags := {| gtitle := groupTitle vuln;
                   rid := ruleId vuln;
                   gid := vulnNum vuln;
                   stig_id := ruleVersion vuln;
                   cci := cciRef (cciRefText vuln);
                   nist := nistTag (cciRefText vuln);
                   tag_weight := weight vuln;
                   fullTags := extraTags vuln |};
        title := ruleTitle vuln;
        id := vulnNum vuln;
        desc := vulnDiscuss vuln;
        descriptions :=
          [ {| data := checkContent vuln; label := "check" |};
            {| data := fixText vuln; label := "fix" |};
            {| data := comments vuln; label := "comments" |} ];
        impact := transformImpact vuln;
        code := stringifyVuln vuln;
        results := rs |}.

(** Modelled from the spec: the same evaluation of the per-item
    specification of [profiles] on one STIG block; its [controls] are a
    collection node over the block's vulns, mapped item by item in their
    order. *)
Definition mapProfile (stig : ChecklistStig) : result Profile :=
  do cs <- mapResult mapControl (vulns stig);
  Ok {| name := header_title (header stig);
        version := header_version (header stig);
        profile_title := value (header_title (header stig));
        summary := value (header_description (header stig));
        license := value (header_notice (header stig));
        profile_status := value "loaded";
        depends := undefined;
        controls := cs;
        sha256 := "";
        parent_profile := undefined |}.

(** Modelled from the spec: [BaseConverter.toHdf], inherited by
    [ChecklistMapper] (base-converter.ts is not among the sources).
    The collection node [profiles] is mapped item by item, in the order
    of the STIG blocks; the record is newly constructed at every call;
    after construction each profile's hash is computed over its
    serialized [controls] list; a transformer's failure propagates. *)
Definition BaseConverter_toHdf (data : ChecklistObject) : M loc :=
  run ps <- lift (mapResult mapProfile (stigs data));
  run ls <- mapM (fun p => new (OProfile p)) ps;
  run u <- forEach (fun l =>
               run p <- loadProfile l;
               store l
                 (OProfile
                    (set_sha256 (generateHash (stringifyControls (controls p)))
                                p)))
             ls;
  new (OExecution {| platform_name := "Heimdall Tools";
                     platform_release := HeimdallToolsVersion;
                     exec_version := HeimdallToolsVersion;
                     profiles := ls;
                     passthrough := data |}).

(** A profile after the mapper has hashed it. *)
Definition hashedProfile (p : Profile) : Profile :=
  set_sha256 (generateHash (stringifyControls (controls p))) p.

End ChecklistMapper.

(** ** The whole conversion *)

Section Conversion.

Variable HeimdallToolsVersion : string.
Variable generateHash : string -> string.
Variable stringifyProfile : Profile -> string.
Variable stringifyControls : list Control -> string.
Variable stringifyVuln : ChecklistVuln -> string.
Variable nistFilter : list string -> list string -> list string.
Variable DEFAULT_STATIC_CODE_ANALYSIS_NIST_TAGS : list string.

(** [ChecklistResults.toHdf] over the mapper as the spec has it. *)
Definition ChecklistResults_toHdf : ChecklistResults -> M loc :=
  toHdf HeimdallToolsVersion generateHash stringifyProfile
        (BaseConverter_toHdf HeimdallToolsVersion generateHash
           stringifyControls stringifyVuln nistFilter
           DEFAULT_STATIC_CODE_ANALYSIS_NIST_TAGS).

(** The profiles of the record it returns, given the profiles [ps] the
    mapping of the STIG blocks yields. *)
Definition convertedProfiles (numberOfStigs : nat) (ps : list Profile)
  : list Profile :=
  let hashed := map (hashedProfile generateHash stringifyControls) ps in
  if (numberOfStigs =? 1)%nat then hashed
  else map (adoptedProfile generateHash stringifyProfile) hashed
       ++ [parentOf HeimdallToolsVersion generateHash stringifyProfile hashed].

Definition convertedValue (data : ChecklistObject) (ps : list Profile)
  : ExecutionValue :=
  {| ev_platform_name := "Heimdall Tools";
     ev_platform_release := HeimdallToolsVersion;
     ev_version := HeimdallToolsVersion;
     ev_profiles := convertedProfiles (List.length (stigs data)) ps;
     ev_passthrough := data |}.

End Conversion.

(** ** Sample inputs *)

(** A vuln with the given status, severity, override and finding
    details, every other field empty. *)
Definition sampleVuln (st sev : string) (override details : field string)
  : ChecklistVuln :=
  {| vuln_status := st; severity := sev; severityoverride := override;
     findingdetails := details; vulnNum := ""; ruleTitle := "";
     vulnDiscuss := ""; checkContent := ""; fixText := ""; comments := "";
     groupTitle := ""; ruleId := ""; ruleVersion := ""; cciRefText := "";
     weight := ""; otherFields := [] |}.

(** The finding details of the spec's example: a passed result and a
    failed one, separated by the export's separator line. *)
Definition sampleDetails : string :=
  ("passed" ++ String LF "foo bar" ++ String LF detailsSeparator
   ++ "failed" ++ String LF "baz" ++ String LF "expected: 1"
   ++ String LF "actual: 2")%string.

Definition sampleFinding (details : field string) (st : ControlResultStatus)
  : ControlResult :=
  {| code_desc := details; status := st; message := undefined;
     start_time := "" |}.

(** A checklist of two STIG blocks, of three and of five vulns. *)
Definition sampleStig (t : string) (vs : list ChecklistVuln) : ChecklistStig :=
  {| header := {| header_title := t; header_version := "1";
                  header_description := ""; header_notice := "" |};
     vulns := vs |}.

Definition sampleOpen : ChecklistVuln :=
  sampleVuln "Open" "high" undefined (value sampleDetails).

Definition sampleClosed : ChecklistVuln :=
  sampleVuln "NotAFinding" "low" (value "medium") undefined.

Definition sampleChecklist : ChecklistResults :=
  {| checklistXml := "";
     checklistObject :=
       {| asset := [("HOST_NAME", "host")];
          stigs :=
            [ sampleStig "STIG one" [sampleOpen; sampleClosed; sampleOpen];
              sampleStig "STIG two"
                [sampleClosed; sampleOpen; sampleClosed; sampleOpen;
                 sampleClosed] ] |} |}.

(** A checklist of one STIG block. *)
Definition sampleSingle : ChecklistResults :=
  {| checklistXml := "";
     checklistObject :=
       {| asset := [];
          stigs := [ sampleStig "STIG one" [sampleOpen; sampleClosed] ] |} |}.

(** Stand-ins for the collaborators, to run the samples. *)
Definition sampleHash (s : string) : string := ("sha256:" ++ s)%string.

Definition sampleStringifyControls (cs : list Control) : string :=
  String.concat "," (map id cs).

Definition sampleStringifyProfile (p : Profile) : string :=
  (name p ++ "/" ++ sampleStringifyControls (controls p) ++ "/" ++ sha256 p
   ++ "/" ++ match parent_profile p with value n => n | _ => "" end
   ++ "/" ++ match depends p with
             | value ds => String.concat "," (map dep_name ds)
             | _ => ""
             end)%string.

Definition sampleMapper : ChecklistObject -> M loc :=
  BaseConverter_toHdf "2.10.0" sampleHash sampleStringifyControls
                      (fun _ => "") (fun ids _ => ids) [].

Definition sampleToHdf : ChecklistResults -> M loc :=
  toHdf "2.10.0" sampleHash sampleStringifyProfile sampleMapper.

(** The heap after the mapper has converted [sampleChecklist] in the
    empty heap. *)
Definition sampleOriginalHeap : heap :=
  match sampleMapper (checklistObject sampleChecklist) [] with
  | Ok (_, h) => h
  | Throw _ => []
  end.

(** The record the mapper has built there, and its profiles. *)
Definition sampleOriginal : Execution :=
  {| platform_name := "Heimdall Tools";
     platform_release := "2.10.0";
     exec_version := "2.10.0";
     profiles := [0%nat; 1%nat];
     passthrough := checklistObject sampleChecklist |}.

Definition sampleBefore : list Profile :=
  match snapshot sampleOriginalHeap 2%nat with
  | Ok v => ev_profiles v
  | Throw _ => []
  end.

(** A checklist without any STIG block, and the record the mapper
    builds for it in the empty heap. *)
Definition sampleEmpty : ChecklistResults :=
  {| checklistXml := "";
     checklistObject := {| asset := []; stigs := [] |} |}.

Definition sampleEmptyRecord : Execution :=
  {| platform_name := "Heimdall Tools";
     platform_release := "2.10.0";
     exec_version := "2.10.0";
     profiles := [];
     passthrough := checklistObject sampleEmpty |}.

(** * Properties *)

(** ** Strings *)

Lemma eqIgnoreCase_toLowerCase (s t : string) :
  eqIgnoreCase s t = true <-> toLowerCase s = toLowerCase t.
Proof.
  revert t; induction s as [|a s IH]; intros [|b t]; simpl; try easy.
  rewrite andb_true_iff, Ascii.eqb_eq, IH.
  split; [intros [H1 H2]; congruence | intros H; inversion H; auto].
Qed.

Lemma includes_false_cons (x k : string) (l : list string) :
  includes (k :: l) x = false -> String.eqb x k = false /\ includes l x = false.
Proof. unfold includes; simpl; apply orb_false_elim. Qed.

Lemma includes_In (l : list string) (x : string) :
  includes l x = true <-> In x l.
Proof.
  unfold includes. rewrite existsb_exists. split.
  - intros [y [Hy Heq]]. apply String.eqb_eq in Heq. congruence.
  - intros H. exists x. split; [assumption | apply String.eqb_refl].
Qed.

Lemma prefix_append (pat s : string) :
  String.prefix pat s = true -> exists tail, s = (pat ++ tail)%string.
Proof.
  revert s; induction pat as [|a pat IH]; intros s H.
  - exists s; reflexivity.
  - destruct s as [|b s]; simpl in H; [discriminate|].
    destruct (ascii_dec a b) as [->|]; [|discriminate].
    destruct (IH _ H) as [tail ->]. exists tail; reflexivity.
Qed.

Lemma indexOfFrom_unfold (pat s : string) (i : Z) :
  indexOfFrom pat s i =
  if String.prefix pat s then i
  else match s with
       | EmptyString => -1
       | String _ s' => indexOfFrom pat s' (i + 1)
       end.
Proof. destruct s; reflexivity. Qed.

Lemma indexOfFrom_found (pat s : string) (i k : Z) :
  0 <= i -> indexOfFrom pat s i = k -> 0 <= k ->
  exists pre tail,
    s = (pre ++ pat ++ tail)%string /\ Z.of_nat (String.length pre) = k - i.
Proof.
  revert i; induction s as [|c s IH]; intros i Hi H Hk;
    rewrite indexOfFrom_unfold in H.
  - destruct (String.prefix pat "") eqn:Hp; [|lia].
    destruct (prefix_append _ _ Hp) as [tail Htail].
    exists "", tail. split; [exact Htail | simpl; lia].
  - destruct (String.prefix pat (String c s)) eqn:Hp.
    + destruct (prefix_append _ _ Hp) as [tail Htail].
      exists "", tail. split; [exact Htail | simpl; lia].
    + destruct (IH (i + 1) ltac:(lia) H Hk) as (pre & tail & -> & Hlen).
      exists (String c pre), tail. split; [reflexivity|].
      simpl String.length. lia.
Qed.

Lemma substring_prefix_append (pre rest : string) :
  substring 0 (String.length pre) (pre ++ rest) = pre.
Proof.
  induction pre as [|c pre IH]; simpl.
  - destruct rest; reflexivity.
  - rewrite IH; reflexivity.
Qed.

Lemma substring_from_append (pre rest : string) :
  substring (String.length pre) (String.length rest) (pre ++ rest) = rest.
Proof.
  induction pre as [|c pre IH]; simpl; [|exact IH].
  induction rest as [|c rest IH]; simpl; [reflexivity|].
  rewrite IH; reflexivity.
Qed.

Lemma length_append (s t : string) :
  String.length (s ++ t) = (String.length s + String.length t)%nat.
Proof. induction s; simpl; congruence. Qed.

Lemma append_assoc (s t u : string) :
  ((s ++ t) ++ u)%string = (s ++ t ++ u)%string.
Proof. induction s; simpl; congruence. Qed.

Lemma relativeIndex_nonneg (len i : Z) :
  0 <= i -> relativeIndex len i = Z.min i len.
Proof.
  intros H. unfold relativeIndex. destruct (Z.ltb_spec i 0); [lia | easy].
Qed.

(** [s.slice(k)] drops the first [k] characters. *)
Lemma slice_from (pre rest : string) (k : Z) :
  Z.of_nat (String.length pre) = k ->
  slice (pre ++ rest) k None = rest.
Proof.
  intros Hk. unfold slice. rewrite length_append.
  rewrite relativeIndex_nonneg by lia.
  match goal with
  | |- substring ?a ?b _ = _ =>
      replace a with (String.length pre) by lia;
      replace b with (String.length rest) by lia
  end.
  apply substring_from_append.
Qed.

(** [s.slice(0, k)] keeps the first [k] characters. *)
Lemma slice_to (pre rest : string) (k : Z) :
  Z.of_nat (String.length pre) = k ->
  slice (pre ++ rest) 0 (Some k) = pre.
Proof.
  intros Hk. unfold slice. rewrite length_append.
  rewrite !relativeIndex_nonneg by lia.
  match goal with
  | |- substring ?a ?b _ = _ =>
      replace a with O by lia;
      replace b with (String.length pre) by lia
  end.
  apply substring_prefix_append.
Qed.

(** Dropping the last character of a non-empty string. *)
Lemma append_last (s : string) :
  s <> "" ->
  exists init c, s = (init ++ String c "")%string
                 /\ String.length s = S (String.length init).
Proof.
  induction s as [|a s IH]; [easy|]; intros _.
  destruct s as [|b s].
  - exists "", a. auto.
  - destruct IH as (init & c & -> & Hlen); [easy|].
    exists (String a init), c. simpl in *; auto.
Qed.

(** ** The loops of [parseFindingDetails] *)

Lemma forEachDetails_acc (f : ControlResult) (segs : list string)
      (acc : list ControlResult) :
  forEachDetails f segs acc
  = do rs <- forEachDetails f segs []; Ok (acc ++ rs).
Proof.
  revert acc; induction segs as [|d segs IH]; intros acc; simpl.
  - rewrite app_nil_r; reflexivity.
  - destruct (parseDetails f d) as [r|e]; simpl; [|reflexivity].
    rewrite IH, (IH [r]).
    destruct (forEachDetails f segs []); simpl; [|reflexivity].
    rewrite <- app_assoc; reflexivity.
Qed.

Lemma forEachFinding_acc (fs acc : list ControlResult) :
  forEachFinding fs acc = do rs <- forEachFinding fs []; Ok (acc ++ rs).
Proof.
  revert acc; induction fs as [|f fs IH]; intros acc; simpl.
  - rewrite app_nil_r; reflexivity.
  - destruct (code_desc f) as [| |[|c cd]];
      try (rewrite IH, (IH [f]);
           destruct (forEachFinding fs []); simpl; [|reflexivity];
           rewrite <- app_assoc; reflexivity).
    rewrite forEachDetails_acc.
    destruct (forEachDetails f _ []) as [rs|e]; simpl; [|reflexivity].
    rewrite IH, (IH rs).
    destruct (forEachFinding fs []); simpl; [|reflexivity].
    rewrite <- app_assoc; reflexivity.
Qed.

Lemma forEachFinding_app (fs1 fs2 acc : list ControlResult) :
  forEachFinding (fs1 ++ fs2) acc
  = do rs <- forEachFinding fs1 acc; forEachFinding fs2 rs.
Proof.
  revert acc; induction fs1 as [|f fs1 IH]; intros acc; simpl; [reflexivity|].
  destruct (code_desc f) as [| |[|c cd]]; try apply IH.
  destruct (forEachDetails f _ acc); simpl; [apply IH | reflexivity].
Qed.

Lemma forEachDetails_In (f : ControlResult) (segs : list string)
      (acc res : list ControlResult) :
  forEachDetails f segs acc = Ok res ->
  (forall r, In r acc -> In r res)
  /\ (forall d, In d segs -> exists r, parseDetails f d = Ok r /\ In r res).
Proof.
  revert acc; induction segs as [|d segs IH]; intros acc H; simpl in H.
  - injection H as <-. split; [auto | intros d []].
  - destruct (parseDetails f d) as [r|e] eqn:Hd; simpl in H; [|discriminate].
    destruct (IH _ H) as [Hacc Hsegs]. split.
    + intros r' Hr'. apply Hacc, in_or_app; auto.
    + intros d' [<-|Hd'].
      * exists r. split; [assumption|]. apply Hacc, in_or_app; simpl; auto.
      * apply Hsegs; assumption.
Qed.

Lemma forEachFinding_In (fs acc res : list ControlResult) :
  forEachFinding fs acc = Ok res ->
  (forall r, In r acc -> In r res)
  /\ (forall f cd d,
        In f fs -> code_desc f = value cd -> cd <> "" ->
        In d (split cd detailsSeparator) ->
        exists r, parseDetails f d = Ok r /\ In r res).
Proof.
  revert acc; induction fs as [|f fs IH]; intros acc H; simpl in H.
  - injection H as <-. split; [auto | intros f cd d []].
  - destruct (code_desc f) as [| |[|c cd]] eqn:Hcd.
    1-3: destruct (IH _ H) as [Hacc Hfs]; split;
      [ intros r Hr; apply Hacc, in_or_app; auto
      | intros f' cd' d [<-|Hf'] Hcd' Hne Hd;
        [ rewrite Hcd in Hcd'; try discriminate;
          injection Hcd' as <-; contradiction
        | eapply Hfs; eassumption ] ].
    destruct (forEachDetails f _ acc) as [rs|e] eqn:Hrs; simpl in H;
      [|discriminate].
    destruct (IH _ H) as [Hacc Hfs].
    destruct (forEachDetails_In _ _ _ _ Hrs) as [Hacc' Hsegs].
    split; [auto|].
    intros f' cd' d [<-|Hf'] Hcd' Hne Hd.
    + rewrite Hcd in Hcd'. injection Hcd' as <-.
      destruct (Hsegs _ Hd) as (r & Hr & Hin). eauto.
    + eapply Hfs; eassumption.
Qed.

(** *** When the loop body throws *)

Lemma splitFirstLine_no_line_feed (s token : string) :
  splitFirstLine s = (token, None) -> token = s.
Proof.
  revert token; induction s as [|c s IH]; intros token H; simpl in H.
  - injection H as <-; reflexivity.
  - destruct (Ascii.eqb c LF); [discriminate|].
    destruct (splitFirstLine s) as [first rest].
    injection H as <- ->. f_equal. apply IH; reflexivity.
Qed.

(** A segment that is a status word and nothing else makes the body
    throw: the text after the status line is [undefined]. *)
Lemma parseDetails_bare_status_word (finding : ControlResult)
      (details : string) :
  includes statusSet details = true ->
  parseDetails finding details = Throw TypeError.
Proof.
  intros H. apply includes_In in H. cbn [statusSet In] in H.
  destruct H as [<-|[<-|[<-|[<-|[]]]]]; reflexivity.
Qed.

(** Every other segment gives a result. *)
Lemma parseDetails_returns (finding : ControlResult) (details : string) :
  includes statusSet details = false ->
  exists r, parseDetails finding details = Ok r.
Proof.
  intros H. unfold parseDetails.
  destruct (splitFirstLine details) as [token rest] eqn:Hsplit.
  destruct (includes statusSet token) eqn:Htoken; [|eauto].
  destruct rest as [rest|].
  - destruct (0 <? indexOf rest expectedMarker); eauto.
  - apply splitFirstLine_no_line_feed in Hsplit. congruence.
Qed.

Lemma forEachDetails_returns (finding : ControlResult) (segs : list string)
      (acc : list ControlResult) :
  forallb (fun d => negb (includes statusSet d)) segs = true ->
  exists res, forEachDetails finding segs acc = Ok res.
Proof.
  revert acc; induction segs as [|d segs IH]; intros acc H; simpl in *.
  - eauto.
  - apply andb_true_iff in H as [Hd Hsegs].
    apply negb_true_iff in Hd.
    destruct (parseDetails_returns finding d Hd) as [r ->]. simpl.
    apply IH; assumption.
Qed.

Lemma forEachFinding_returns (fs acc : list ControlResult) :
  forallb (fun f => segmentsParse (code_desc f)) fs = true ->
  exists res, forEachFinding fs acc = Ok res.
Proof.
  revert acc; induction fs as [|f fs IH]; intros acc H; simpl in *.
  - eauto.
  - apply andb_true_iff in H as [Hf Hfs].
    destruct (code_desc f) as [| |[|c cd]]; try (apply IH; assumption).
    destruct (forEachDetails_returns f _ acc Hf) as [res ->]. simpl.
    apply IH; assumption.
Qed.

Lemma mapResult_returns {A B} (f : A -> result B) (ok : A -> bool)
      (xs : list A) :
  (forall x, ok x = true -> exists y, f x = Ok y) ->
  forallb ok xs = true ->
  exists ys, mapResult f xs = Ok ys.
Proof.
  intros Hf. induction xs as [|x xs IH]; intros H; simpl in *.
  - eauto.
  - apply andb_true_iff in H as [Hx Hxs].
    destruct (Hf x Hx) as [y ->]. destruct (IH Hxs) as [ys ->].
    simpl. eauto.
Qed.

(** ** The heap *)

Lemma mapResult_length {A B} (f : A -> result B) (xs : list A) (ys : list B) :
  mapResult f xs = Ok ys -> List.length ys = List.length xs.
Proof.
  revert ys; induction xs as [|x xs IH]; intros ys H; simpl in H.
  - injection H as <-; reflexivity.
  - destruct (f x); simpl in H; [|discriminate].
    destruct (mapResult f xs); simpl in H; [|discriminate].
    injection H as <-. simpl. f_equal. apply IH; reflexivity.
Qed.

Lemma mapResult_Forall2 {A B} (f : A -> result B) (xs : list A) (ys : list B) :
  mapResult f xs = Ok ys <-> Forall2 (fun x y => f x = Ok y) xs ys.
Proof.
  revert ys; induction xs as [|x xs IH]; intros ys; simpl.
  - split.
    + intros H. injection H as <-. constructor.
    + intros H; inversion H; reflexivity.
  - split.
    + destruct (f x) as [y|] eqn:Hx; simpl; [|discriminate].
      destruct (mapResult f xs) as [ys'|] eqn:Hxs; simpl; [|discriminate].
      intros H; injection H as <-. constructor; [assumption|].
      apply IH; reflexivity.
    + intros H; inversion H as [|? y ? ys' Hy Hys]; subst.
      rewrite Hy; simpl. apply IH in Hys. rewrite Hys. reflexivity.
Qed.

(** Allocating the profiles [ps] puts them, in order, at the first free
    locations. *)
Lemma mapM_new (ps : list Profile) (h : heap) :
  mapM (fun p => new (OProfile p)) ps h
  = Ok (seq (List.length h) (List.length ps), h ++ map OProfile ps).
Proof.
  revert h; induction ps as [|p ps IH]; intros h; simpl.
  - unfold ret. rewrite app_nil_r. reflexivity.
  - unfold mbind at 1. unfold new at 1. unfold mbind at 1.
    rewrite IH. unfold ret. rewrite length_app. simpl.
    rewrite Nat.add_1_r, <- app_assoc. reflexivity.
Qed.

Lemma lookup_allocated (h : heap) (ps : list Profile) (rest : heap) :
  Forall2 (fun l p => (h ++ map OProfile ps ++ rest) !! l = Some (OProfile p))
          (seq (List.length h) (List.length ps)) ps.
Proof.
  revert h; induction ps as [|p ps IH]; intros h; simpl; constructor.
  - apply list_lookup_middle; reflexivity.
  - specialize (IH (h ++ [OProfile p])).
    rewrite length_app, Nat.add_1_r in IH.
    eapply Forall2_impl; [exact IH|].
    intros l q Hl. simpl in Hl. rewrite <- app_assoc in Hl. exact Hl.
Qed.

Lemma loadProfile_run (h : heap) (l : loc) (p : Profile) :
  h !! l = Some (OProfile p) -> loadProfile l h = Ok (p, h).
Proof. intros H. unfold loadProfile, readProfile. rewrite H. reflexivity. Qed.

Lemma loadExecution_run (h : heap) (l : loc) (e : Execution) :
  h !! l = Some (OExecution e) -> loadExecution l h = Ok (e, h).
Proof.
  intros H. unfold loadExecution, readExecution. rewrite H. reflexivity.
Qed.

Lemma Forall2_lookup_insert {A} (g : A -> object) (h : heap) (l : loc)
      (o : object) (ls : list loc) (xs : list A) :
  l ∉ ls ->
  Forall2 (fun l' x => h !! l' = Some (g x)) ls xs ->
  Forall2 (fun l' x => <[l := o]> h !! l' = Some (g x)) ls xs.
Proof.
  intros Hnotin Hall. induction Hall as [|l' x ls xs Hl' Hall IH].
  - constructor.
  - apply not_elem_of_cons in Hnotin as [Hne Hnotin].
    constructor; [|apply IH; assumption].
    cbv beta. rewrite list_lookup_insert_ne by assumption. exact Hl'.
Qed.

(** A loop that replaces the profile at each of the distinct locations
    [ls] by its image under [f] changes those locations only. *)
Lemma forEach_update (f : Profile -> Profile) (ls : list loc)
      (ps : list Profile) (h : heap) :
  NoDup ls ->
  Forall2 (fun l p => h !! l = Some (OProfile p)) ls ps ->
  exists h',
    forEach (fun l => run p <- loadProfile l; store l (OProfile (f p))) ls h
    = Ok (tt, h')
    /\ List.length h' = List.length h
    /\ (forall l, l ∉ ls -> h' !! l = h !! l)
    /\ Forall2 (fun l p => h' !! l = Some (OProfile (f p))) ls ps.
Proof.
  intros Hnd Hall; revert ls h Hnd Hall.
  induction ps as [|p ps IH]; intros ls h Hnd Hall;
    inversion Hall as [|l ? ls' ? Hl Hrest]; subst.
  - exists h. repeat split; auto.
  - apply NoDup_cons in Hnd as [Hnotin Hnd].
    pose proof (lookup_lt_Some _ _ _ Hl) as Hlt.
    destruct (IH ls' (<[l := OProfile (f p)]> h) Hnd)
      as (h' & Hrun & Hlen & Hframe & Hdone).
    { apply (Forall2_lookup_insert OProfile); assumption. }
    exists h'. split; [|split; [|split]].
    + cbn [forEach]. unfold mbind at 1. unfold mbind at 1.
      rewrite (loadProfile_run _ _ _ Hl). unfold store at 1. exact Hrun.
    + rewrite Hlen. apply length_insert.
    + intros l0 Hl0. apply not_elem_of_cons in Hl0 as [Hne Hl0].
      rewrite Hframe by assumption. apply list_lookup_insert_ne; auto.
    + constructor; [|exact Hdone].
      cbv beta. rewrite Hframe by assumption.
      apply list_lookup_insert_eq; assumption.
Qed.

Lemma Forall2_map_right {A B C} (P : A -> C -> Prop) (f : B -> C)
      (xs : list A) (ys : list B) :
  Forall2 (fun x y => P x (f y)) xs ys -> Forall2 P xs (map f ys).
Proof. induction 1; simpl; constructor; auto. Qed.

Lemma readProfile_lookup (h : heap) (l : loc) (p : Profile) :
  readProfile h l = Ok p <-> h !! l = Some (OProfile p).
Proof.
  unfold readProfile. destruct (h !! l) as [[q|e]|]; split; intros H;
    try discriminate; [injection H as <- | injection H as <-]; reflexivity.
Qed.

Lemma readExecution_lookup (h : heap) (l : loc) (e : Execution) :
  readExecution h l = Ok e <-> h !! l = Some (OExecution e).
Proof.
  unfold readExecution. destruct (h !! l) as [[q|e']|]; split; intros H;
    try discriminate; [injection H as <- | injection H as <-]; reflexivity.
Qed.

(** The snapshot of a record whose profiles are at hand. *)
Lemma snapshot_intro (h : heap) (l : loc) (e : Execution) (ps : list Profile) :
  h !! l = Some (OExecution e) ->
  Forall2 (fun l' p => h !! l' = Some (OProfile p)) (profiles e) ps ->
  snapshot h l
  = Ok {| ev_platform_name := platform_name e;
          ev_platform_release := platform_release e;
          ev_version := exec_version e;
          ev_profiles := ps;
          ev_passthrough := passthrough e |}.
Proof.
  intros He Hps. unfold snapshot.
  apply readExecution_lookup in He. rewrite He. cbn [JS.bind].
  assert (Hread : mapResult (readProfile h) (profiles e) = Ok ps).
  { apply mapResult_Forall2. eapply Forall2_impl; [exact Hps|].
    intros l' p Hl'. apply readProfile_lookup; exact Hl'. }
  rewrite Hread. reflexivity.
Qed.

(** A snapshot reads allocated locations only: it is the same in every
    heap that agrees with [h] on the locations of [h]. *)
Lemma snapshot_frame (h h' : heap) (l : loc) (v : ExecutionValue) :
  (forall l0, (l0 < List.length h)%nat -> h' !! l0 = h !! l0) ->
  snapshot h l = Ok v -> snapshot h' l = Ok v.
Proof.
  intros Hframe. unfold snapshot.
  destruct (readExecution h l) as [e|] eqn:He; [|discriminate].
  apply readExecution_lookup in He.
  assert (He' : readExecution h' l = Ok e).
  { apply readExecution_lookup. rewrite Hframe; [exact He|].
    eapply lookup_lt_Some; exact He. }
  rewrite He'. cbn [JS.bind].
  destruct (mapResult (readProfile h) (profiles e)) as [ps|] eqn:Hps;
    [|discriminate].
  assert (Hps' : mapResult (readProfile h') (profiles e) = Ok ps).
  { apply mapResult_Forall2. apply mapResult_Forall2 in Hps.
    eapply Forall2_impl; [exact Hps|].
    intros l' p Hl'. apply readProfile_lookup in Hl'.
    apply readProfile_lookup. rewrite Hframe; [exact Hl'|].
    eapply lookup_lt_Some; exact Hl'. }
  rewrite Hps'. auto.
Qed.

Lemma mbind_Ok {A B} (m : M A) (k : A -> M B) (h h' : heap) (a : A) :
  m h = Ok (a, h') -> mbind m k h = k a h'.
Proof. intros H. unfold mbind. rewrite H. reflexivity. Qed.

Lemma mbind_Throw {A B} (m : M A) (k : A -> M B) (h : heap) (e : exn) :
  m h = Throw e -> mbind m k h = Throw e.
Proof. intros H. unfold mbind. rewrite H. reflexivity. Qed.

(** Reading back through the stores the loops make. *)
Ltac lookup_store :=
  repeat first
    [ rewrite list_lookup_insert_eq by (rewrite ?length_insert; assumption)
    | rewrite list_lookup_insert_ne by congruence ];
  first [ eassumption | reflexivity ].

Ltac run_loadProfile :=
  erewrite mbind_Ok by (apply loadProfile_run; lookup_store).

Ltac run_store :=
  erewrite mbind_Ok by (unfold store; reflexivity).

Lemma Forall2_lookup_elem {A} (g : A -> object) (h : heap) (ls : list loc)
      (xs : list A) (l : loc) :
  Forall2 (fun l' x => h !! l' = Some (g x)) ls xs ->
  l ∈ ls -> exists x, h !! l = Some (g x).
Proof.
  induction 1 as [|l' x ls xs Hl' _ IH]; intros Hin.
  - inversion Hin.
  - apply elem_of_cons in Hin as [->|Hin]; eauto.
Qed.

Section AggregationProperties.

Variable HeimdallToolsVersion : string.
Variable generateHash : string -> string.
Variable stringifyProfile : Profile -> string.
Variable mapper : ChecklistObject -> M loc.

Local Abbreviation toHdf' :=
  (toHdf HeimdallToolsVersion generateHash stringifyProfile mapper).
Local Abbreviation aggregate' := (aggregate generateHash stringifyProfile).
Local Abbreviation adopted := (adoptedProfile generateHash stringifyProfile).
Local Abbreviation parentWith' := (parentWith HeimdallToolsVersion).
Local Abbreviation parentOf' :=
  (parentOf HeimdallToolsVersion generateHash stringifyProfile).

(** One turn of the loop of [toHdf]. *)
Lemma aggregate_run (lp l : loc) (h : heap) (p : Profile)
      (ds : list Dependency) (cs : list Control) (sha : string) :
  l <> lp ->
  h !! lp = Some (OProfile (parentWith' ds cs sha)) ->
  h !! l = Some (OProfile p) ->
  aggregate' lp l h
  = Ok (tt, <[l := OProfile (adopted p)]>
              (<[lp := OProfile (parentWith' (ds ++ [dependencyOn p])
                                             (cs ++ controls p) sha)]> h)).
Proof.
  intros Hne Hlp Hl.
  pose proof (lookup_lt_Some _ _ _ Hlp) as Hlplt.
  pose proof (lookup_lt_Some _ _ _ Hl) as Hllt.
  unfold aggregate.
  run_loadProfile. run_loadProfile. run_store.
  run_loadProfile. run_loadProfile. run_store.
  run_loadProfile. run_store.
  run_loadProfile. unfold store.
  rewrite !list_insert_insert_eq. reflexivity.
Qed.

(** The loop of [toHdf]: every child is adopted, the parent gains the
    children's names and controls in order, and nothing else changes. *)
Lemma forEach_aggregate (lp : loc) (ls : list loc) (ps : list Profile)
      (h : heap) (ds : list Dependency) (cs : list Control) (sha : string) :
  NoDup ls -> lp ∉ ls ->
  Forall2 (fun l p => h !! l = Some (OProfile p)) ls ps ->
  h !! lp = Some (OProfile (parentWith' ds cs sha)) ->
  exists h',
    forEach (aggregate' lp) ls h = Ok (tt, h')
    /\ List.length h' = List.length h
    /\ (forall l, l ∉ ls -> l <> lp -> h' !! l = h !! l)
    /\ Forall2 (fun l p => h' !! l = Some (OProfile (adopted p))) ls ps
    /\ h' !! lp
       = Some (OProfile (parentWith' (ds ++ map dependencyOn ps)
                                     (cs ++ concat (map controls ps)) sha)).
Proof.
  intros Hnd Hlp Hall Hparent; revert ls h ds cs Hnd Hlp Hall Hparent.
  induction ps as [|p ps IH]; intros ls h ds cs Hnd Hlp Hall Hparent;
    inversion Hall as [|l ? ls' ? Hl Hrest]; subst.
  - exists h. simpl. rewrite !app_nil_r. repeat split; auto.
  - apply NoDup_cons in Hnd as [Hnotin Hnd].
    apply not_elem_of_cons in Hlp as [Hne Hlp].
    pose proof (lookup_lt_Some _ _ _ Hl) as Hllt.
    pose proof (lookup_lt_Some _ _ _ Hparent) as Hlplt.
    set (h1 := <[l := OProfile (adopted p)]>
                 (<[lp := OProfile (parentWith' (ds ++ [dependencyOn p])
                                                (cs ++ controls p) sha)]> h)).
    destruct (IH ls' h1 (ds ++ [dependencyOn p]) (cs ++ controls p) Hnd Hlp)
      as (h' & Hrun & Hlen & Hframe & Hdone & Hpar).
    { unfold h1. apply (Forall2_lookup_insert OProfile); [assumption|].
      apply (Forall2_lookup_insert OProfile); assumption. }
    { unfold h1. rewrite list_lookup_insert_ne by congruence.
      apply list_lookup_insert_eq; assumption. }
    exists h'. split; [|split; [|split; [|split]]].
    + cbn [forEach].
      erewrite mbind_Ok by (apply aggregate_run; eauto). exact Hrun.
    + rewrite Hlen. unfold h1. rewrite !length_insert. reflexivity.
    + intros l0 Hl0 Hl0p. apply not_elem_of_cons in Hl0 as [Hl0l Hl0].
      rewrite Hframe by assumption. unfold h1.
      rewrite !list_lookup_insert_ne by congruence. reflexivity.
    + constructor; [|exact Hdone].
      cbv beta. rewrite Hframe by congruence. unfold h1.
      apply list_lookup_insert_eq. rewrite length_insert. assumption.
    + rewrite Hpar. simpl. rewrite <- !app_assoc. reflexivity.
Qed.

(** With one STIG block [toHdf] is the mapper's conversion. *)
Lemma toHdf_single (this : ChecklistResults) (h : heap) :
  List.length (stigs (checklistObject this)) = 1%nat ->
  toHdf' this h = mapper (checklistObject this) h.
Proof. intros H. unfold toHdf. rewrite H. reflexivity. Qed.

(** When the mapper's conversion throws, so does [toHdf]. *)
Lemma toHdf_throw (this : ChecklistResults) (h : heap) (e : exn) :
  mapper (checklistObject this) h = Throw e ->
  toHdf' this h = Throw e.
Proof.
  intros Hrun. unfold toHdf.
  destruct (List.length (stigs (checklistObject this)) =? 1)%nat.
  - exact Hrun.
  - apply mbind_Throw; exact Hrun.
Qed.

(** A run of [toHdf] on any number of STIG blocks but one, the mapper
    having returned a record of distinct profiles [before]: the parent
    goes to the first free location, every child is adopted, the record
    gains the parent, and the rest of the heap is as it was. *)
Lemma toHdf_aggregates (this : ChecklistResults) (h h1 : heap)
      (original : loc) (e : Execution) (before : list Profile) :
  List.length (stigs (checklistObject this)) <> 1%nat ->
  mapper (checklistObject this) h = Ok (original, h1) ->
  holdsRecord h1 original e before ->
  exists h',
    toHdf' this h = Ok (original, h')
    /\ List.length h' = S (List.length h1)
    /\ (forall l, l ∉ profiles e -> l <> original -> l <> List.length h1 ->
                  h' !! l = h1 !! l)
    /\ holdsRecord h' original (pushProfile (List.length h1) e)
                   (map adopted before ++ [parentOf' before]).
Proof.
  intros Hn Hrun (Hexec & Hnd & Hbefore).
  unfold toHdf.
  destruct (Nat.eqb_spec (List.length (stigs (checklistObject this))) 1);
    [contradiction|].
  erewrite mbind_Ok by exact Hrun.
  erewrite mbind_Ok by (unfold new; reflexivity).
  erewrite mbind_Ok
    by (apply loadExecution_run, lookup_app_l_Some; exact Hexec).
  pose proof (lookup_lt_Some _ _ _ Hexec) as Horiglt.
  assert (Hnotin : List.length h1 ∉ profiles e).
  { intros Hin.
    destruct (Forall2_lookup_elem OProfile _ _ _ _ Hbefore Hin) as [p Hp].
    apply lookup_lt_Some in Hp. lia. }
  assert (Horig : original ∉ profiles e).
  { intros Hin.
    destruct (Forall2_lookup_elem OProfile _ _ _ _ Hbefore Hin) as [p Hp].
    congruence. }
  assert (Hne : original <> List.length h1) by lia.
  match goal with
  | |- context [mbind (forEach _ _) _ ?h2] =>
      destruct (forEach_aggregate (List.length h1) (profiles e)
                  before h2 [] [] "" Hnd Hnotin)
        as (h3 & Hrun3 & Hlen3 & Hframe3 & Hdone3 & Hpar3)
  end.
  { eapply Forall2_impl; [exact Hbefore|].
    intros l p Hl. apply lookup_app_l_Some; exact Hl. }
  { apply list_lookup_middle; reflexivity. }
  cbn [app] in Hpar3.
  rewrite length_app in Hlen3. cbn [List.length] in Hlen3.
  erewrite mbind_Ok by exact Hrun3.
  erewrite mbind_Ok by (apply loadProfile_run; exact Hpar3).
  run_store.
  erewrite mbind_Ok.
  2:{ apply loadExecution_run.
      rewrite list_lookup_insert_ne by congruence.
      rewrite Hframe3 by congruence.
      apply lookup_app_l_Some; exact Hexec. }
  run_store. unfold ret.
  eexists. split; [reflexivity|]. split; [|split].
  - rewrite !length_insert. lia.
  - intros l Hl Hlo Hlp.
    rewrite !list_lookup_insert_ne by congruence.
    rewrite Hframe3 by assumption.
    destruct (Nat.lt_ge_cases l (List.length h1)) as [Hlt|Hge].
    + apply lookup_app_l; exact Hlt.
    + rewrite !lookup_ge_None_2; [reflexivity|lia|].
      rewrite length_app. cbn [List.length]. lia.
  - split; [|split].
    + apply list_lookup_insert_eq. rewrite length_insert. lia.
    + cbn [profiles pushProfile]. apply NoDup_app. split; [exact Hnd|].
      split; [|apply NoDup_singleton].
      intros l Hl Hl'. apply list_elem_of_singleton in Hl'. congruence.
    + cbn [profiles pushProfile]. apply Forall2_app.
      * apply Forall2_map_right.
        apply (Forall2_lookup_insert (fun p => OProfile (adopted p)));
          [exact Horig|].
        apply (Forall2_lookup_insert (fun p => OProfile (adopted p)));
          [exact Hnotin|].
        exact Hdone3.
      * constructor; [|constructor].
        rewrite list_lookup_insert_ne by congruence.
        apply list_lookup_insert_eq. lia.
Qed.

(** The snapshot of a record that the heap holds. *)
Lemma holdsRecord_snapshot (h : heap) (l : loc) (e : Execution)
      (ps : list Profile) :
  holdsRecord h l e ps ->
  snapshot h l
  = Ok {| ev_platform_name := platform_name e;
          ev_platform_release := platform_release e;
          ev_version := exec_version e;
          ev_profiles := ps;
          ev_passthrough := passthrough e |}.
Proof. intros (He & _ & Hps). apply snapshot_intro; assumption. Qed.

(** *** Multi-STIG aggregation *)

(** C2: with more than one STIG block, the mapper's conversion having
    returned [original], a record of distinct profiles, [toHdf] returns
    [original] with a parent profile appended after the child profiles,
    which keep their order.  The parent's [depends] names every child in
    that order, its [controls] are the children's controls concatenated
    in order, and every child's [parent_profile] is the parent's name.
    When the mapper's profiles follow two STIG blocks of three and five
    vulns, named by their titles and with a control per vuln, there are
    three profiles, the parent has eight controls and depends on the two
    titles. *)
Theorem toHdf_parent_profile (this : ChecklistResults) (h h1 : heap)
        (original : loc) (e : Execution) (before : list Profile) :
  (1 < List.length (stigs (checklistObject this)))%nat ->
  mapper (checklistObject this) h = Ok (original, h1) ->
  holdsRecord h1 original e before ->
  exists h' children parent,
    toHdf' this h = Ok (original, h')
    /\ snapshot h' original
       = Ok {| ev_platform_name := platform_name e;
               ev_platform_release := platform_release e;
               ev_version := exec_version e;
               ev_profiles := children ++ [parent];
               ev_passthrough := passthrough e |}
    /\ map name children = map name before
    /\ map controls children = map controls before
    /\ name parent = parentProfileName
    /\ depends parent = value (map (fun c => {| dep_name := name c |}) children)
    /\ controls parent = concat (map controls children)
    /\ Forall (fun c => parent_profile c = value (name parent)) children
    /\ (forall s1 s2,
          stigs (checklistObject this) = [s1; s2] ->
          map name before
          = [header_title (header s1); header_title (header s2)] ->
          map (fun p => List.length (controls p)) before
          = [List.length (vulns s1); List.length (vulns s2)] ->
          List.length (vulns s1) = 3%nat ->
          List.length (vulns s2) = 5%nat ->
          List.length (children ++ [parent]) = 3%nat
          /\ List.length (controls parent) = 8%nat
          /\ depends parent
             = value [ {| dep_name := header_title (header s1) |};
                       {| dep_name := header_title (header s2) |} ]).
Proof.
  intros Hmany Hrun Hrecord.
  destruct (toHdf_aggregates this h h1 original e before)
    as (h' & Hrun' & _ & _ & Hrecord'); [lia | assumption | assumption |].
  set (children := map adopted before) in *.
  set (parent := parentOf' before) in *.
  assert (Hn : map name children = map name before).
  { unfold children. rewrite map_map. reflexivity. }
  assert (Hc : map controls children = map controls before).
  { unfold children. rewrite map_map. reflexivity. }
  assert (Hd : depends parent
               = value (map (fun c => {| dep_name := name c |}) children)).
  { unfold parent, children, parentOf.
    cbn [depends set_sha256 parentWith]. rewrite map_map. reflexivity. }
  assert (Hcs : controls parent = concat (map controls children)).
  { unfold parent, parentOf. cbn [controls set_sha256 parentWith].
    rewrite Hc. reflexivity. }
  exists h', children, parent.
  split; [exact Hrun'|]. split.
  { rewrite (holdsRecord_snapshot _ _ _ _ Hrecord'). reflexivity. }
  split; [exact Hn|]. split; [exact Hc|]. split; [reflexivity|].
  split; [exact Hd|]. split; [exact Hcs|]. split.
  { unfold children. rewrite Forall_map. apply Forall_forall.
    intros p _. reflexivity. }
  intros s1 s2 _ Hnames Hcounts H3 H5.
  rewrite Hd, Hcs, Hc. clear Hd Hcs Hrecord'.
  assert (Hnames' : map name children
                    = [header_title (header s1); header_title (header s2)])
    by congruence.
  clear -Hnames' Hcounts H3 H5 Hn.
  destruct before as [|p1 [|p2 [|p3 ps]]]; try discriminate.
  destruct children as [|c1 [|c2 [|c3 cs]]]; try discriminate.
  cbn in Hnames', Hcounts. injection Hnames' as Hn1 Hn2.
  injection Hcounts as Hc1 Hc2.
  cbn. rewrite app_nil_r, length_app, Hn1, Hn2, Hc1, Hc2, H3, H5.
  repeat split.
Qed.

(** C7: in the multi-STIG case the hashes are taken after the mutation.
    A child's hash is the hash of its serialization once
    [parent_profile] has been assigned, and the child is not changed
    afterwards but for the hash itself; the parent's hash is the hash of
    its serialization with every dependency and every control of the
    children already added, and the parent is not changed afterwards
    but for the hash itself. *)
Theorem toHdf_hashes_after_mutation (this : ChecklistResults)
        (h h1 : heap) (original : loc) (e : Execution)
        (before : list Profile) :
  (1 < List.length (stigs (checklistObject this)))%nat ->
  mapper (checklistObject this) h = Ok (original, h1) ->
  holdsRecord h1 original e before ->
  exists h' children parent,
    toHdf' this h = Ok (original, h')
    /\ snapshot h' original
       = Ok {| ev_platform_name := platform_name e;
               ev_platform_release := platform_release e;
               ev_version := exec_version e;
               ev_profiles := children ++ [parent];
               ev_passthrough := passthrough e |}
    /\ Forall2
         (fun c0 c =>
            let assigned := set_parent_profile (value parentProfileName) c0 in
            sha256 c = generateHash (stringifyProfile assigned)
            /\ c = set_sha256 (sha256 c) assigned)
         before children
    /\ depends parent = value (map (fun c => {| dep_name := name c |}) before)
    /\ controls parent = concat (map controls before)
    /\ sha256 parent
       = generateHash (stringifyProfile (set_sha256 "" parent)).
Proof.
  intros Hmany Hrun Hrecord.
  destruct (toHdf_aggregates this h h1 original e before)
    as (h' & Hrun' & _ & _ & Hrecord'); [lia | assumption | assumption |].
  exists h', (map adopted before), (parentOf' before).
  split; [exact Hrun'|]. split.
  { rewrite (holdsRecord_snapshot _ _ _ _ Hrecord'). reflexivity. }
  split.
  { apply Forall2_map_right. clear.
    induction before as [|c0 cs IH];
      [constructor | constructor; [split; reflexivity | exact IH]]. }
  repeat split.
Qed.

End AggregationProperties.

Section MapperProperties.

Variable HeimdallToolsVersion : string.
Variable generateHash : string -> string.
Variable stringifyProfile : Profile -> string.
Variable stringifyControls : list Control -> string.
Variable stringifyVuln : ChecklistVuln -> string.
Variable nistFilter : list string -> list string -> list string.
Variable DEFAULT_STATIC_CODE_ANALYSIS_NIST_TAGS : list string.

Local Abbreviation mapProfile' :=
  (mapProfile stringifyVuln nistFilter DEFAULT_STATIC_CODE_ANALYSIS_NIST_TAGS).
Local Abbreviation mapper :=
  (BaseConverter_toHdf HeimdallToolsVersion generateHash stringifyControls
     stringifyVuln nistFilter DEFAULT_STATIC_CODE_ANALYSIS_NIST_TAGS).
Local Abbreviation toHdf' :=
  (ChecklistResults_toHdf HeimdallToolsVersion generateHash stringifyProfile
     stringifyControls stringifyVuln nistFilter
     DEFAULT_STATIC_CODE_ANALYSIS_NIST_TAGS).
Local Abbreviation hashed := (hashedProfile generateHash stringifyControls).
Local Abbreviation converted :=
  (convertedValue HeimdallToolsVersion generateHash stringifyProfile
     stringifyControls).

(** A run of the mapper: it throws when the mapping of a STIG block
    throws; otherwise it puts the hashed profiles and then the
    execution record at the first free locations and leaves the rest
    of the heap as it was. *)
Lemma BaseConverter_toHdf_throw (data : ChecklistObject) (h : heap)
      (e : exn) :
  mapResult mapProfile' (stigs data) = Throw e ->
  mapper data h = Throw e.
Proof.
  intros Hps. unfold BaseConverter_toHdf.
  apply mbind_Throw. unfold lift. rewrite Hps. reflexivity.
Qed.

Lemma BaseConverter_toHdf_run (data : ChecklistObject) (h : heap)
      (ps : list Profile) :
  mapResult mapProfile' (stigs data) = Ok ps ->
  exists h',
    mapper data h = Ok ((List.length h + List.length ps)%nat, h')
    /\ List.length h' = S (List.length h + List.length ps)
    /\ (forall l, (l < List.length h)%nat -> h' !! l = h !! l)
    /\ Forall2 (fun l p => h' !! l = Some (OProfile (hashed p)))
               (seq (List.length h) (List.length ps)) ps
    /\ h' !! (List.length h + List.length ps)%nat
       = Some (OExecution
                 {| platform_name := "Heimdall Tools";
                    platform_release := HeimdallToolsVersion;
                    exec_version := HeimdallToolsVersion;
                    profiles := seq (List.length h) (List.length ps);
                    passthrough := data |}).
Proof.
  intros Hps. unfold BaseConverter_toHdf.
  erewrite mbind_Ok by (unfold lift; rewrite Hps; reflexivity).
  erewrite mbind_Ok by apply mapM_new.
  destruct (forEach_update hashed (seq (List.length h) (List.length ps)) ps
                           (h ++ map OProfile ps))
    as (h1 & Hrun & Hlen & Hframe & Hdone).
  { apply NoDup_seq. }
  { pose proof (lookup_allocated h ps []) as Hall.
    rewrite app_nil_r in Hall. exact Hall. }
  unfold hashedProfile in Hrun at 1.
  erewrite mbind_Ok by exact Hrun.
  rewrite length_app, length_map in Hlen.
  unfold new. rewrite Hlen.
  eexists. split; [reflexivity|]. split; [|split; [|split]].
  - rewrite length_app, Hlen. simpl. lia.
  - intros l Hl. rewrite lookup_app_l by lia.
    rewrite Hframe by (rewrite elem_of_seq; lia).
    apply lookup_app_l; assumption.
  - eapply Forall2_impl; [exact Hdone|].
    intros l p Hl. apply lookup_app_l_Some; exact Hl.
  - apply list_lookup_middle. symmetry; exact Hlen.
Qed.

(** The record the mapper returns. *)
Lemma BaseConverter_toHdf_record (data : ChecklistObject) (h : heap)
      (ps : list Profile) :
  mapResult mapProfile' (stigs data) = Ok ps ->
  exists h1,
    mapper data h = Ok ((List.length h + List.length ps)%nat, h1)
    /\ List.length h1 = S (List.length h + List.length ps)
    /\ (forall l, (l < List.length h)%nat -> h1 !! l = h !! l)
    /\ holdsRecord h1 (List.length h + List.length ps)%nat
         {| platform_name := "Heimdall Tools";
            platform_release := HeimdallToolsVersion;
            exec_version := HeimdallToolsVersion;
            profiles := seq (List.length h) (List.length ps);
            passthrough := data |}
         (map hashed ps).
Proof.
  intros Hps.
  destruct (BaseConverter_toHdf_run data h ps Hps)
    as (h1 & Hrun & Hlen & Hframe & Hprofiles & Hexec).
  exists h1. split; [exact Hrun|]. split; [exact Hlen|].
  split; [exact Hframe|]. split; [exact Hexec|].
  split; [apply NoDup_seq|].
  apply Forall2_map_right. exact Hprofiles.
Qed.

(** What the mapper returns, read out of the heap. *)
Lemma BaseConverter_toHdf_snapshot (data : ChecklistObject) (h h1 : heap)
      (l : loc) :
  mapper data h = Ok (l, h1) ->
  exists ps,
    mapResult mapProfile' (stigs data) = Ok ps
    /\ l = (List.length h + List.length ps)%nat
    /\ snapshot h1 l
       = Ok {| ev_platform_name := "Heimdall Tools";
               ev_platform_release := HeimdallToolsVersion;
               ev_version := HeimdallToolsVersion;
               ev_profiles := map hashed ps;
               ev_passthrough := data |}.
Proof.
  intros Hrun.
  destruct (mapResult mapProfile' (stigs data)) as [ps|e] eqn:Hps.
  - destruct (BaseConverter_toHdf_run data h ps Hps)
      as (h1' & Hrun' & _ & _ & Hprofiles & Hexec).
    rewrite Hrun in Hrun'. injection Hrun' as -> <-.
    exists ps. split; [reflexivity|]. split; [reflexivity|].
    rewrite (snapshot_intro _ _ _ (map hashed ps) Hexec); [reflexivity|].
    apply Forall2_map_right. exact Hprofiles.
  - rewrite (BaseConverter_toHdf_throw data h e Hps) in Hrun.
    discriminate.
Qed.

(** The profiles the mapping yields follow the STIG blocks: one
    profile per block, named by its title, one control per vuln. *)
Lemma mapProfile_shape (ss : list ChecklistStig) (ps : list Profile) :
  mapResult mapProfile' ss = Ok ps ->
  map name ps = map (fun s => header_title (header s)) ss
  /\ map (fun p => List.length (controls p)) ps
     = map (fun s => List.length (vulns s)) ss.
Proof.
  intros H. apply mapResult_Forall2 in H.
  induction H as [|s p ss ps Hp _ [IHn IHc]]; [split; reflexivity|].
  unfold mapProfile in Hp.
  destruct (mapResult _ (vulns s)) as [cs|] eqn:Hcs; [|discriminate].
  apply mapResult_length in Hcs.
  injection Hp as <-. simpl. rewrite IHn, IHc, Hcs. split; reflexivity.
Qed.

(** The conversion returns on every checklist none of whose finding
    details has a bare status word for a segment. *)
Lemma mapProfiles_returns (data : ChecklistObject) :
  detailsParse data = true ->
  exists ps, mapResult mapProfile' (stigs data) = Ok ps.
Proof.
  unfold detailsParse. apply mapResult_returns.
  intros stig Hstig. unfold mapProfile.
  destruct (mapResult_returns
              (mapControl stringifyVuln nistFilter
                          DEFAULT_STATIC_CODE_ANALYSIS_NIST_TAGS)
              (fun vuln => segmentsParse (findingdetails vuln))
              (vulns stig)) as [cs ->]; [|exact Hstig|simpl; eauto].
  intros vuln Hvuln. unfold mapControl, parseFindingDetails.
  destruct (forEachFinding_returns [rawResult vuln] []) as [rs ->];
    [|simpl; eauto].
  simpl. rewrite Hvuln. reflexivity.
Qed.

Lemma BaseConverter_toHdf_returns (data : ChecklistObject) (h : heap) :
  detailsParse data = true ->
  exists original h1, mapper data h = Ok (original, h1).
Proof.
  intros Hdata. destruct (mapProfiles_returns data Hdata) as [ps Hps].
  destruct (BaseConverter_toHdf_run data h ps Hps) as (h1 & Hrun & _).
  eauto.
Qed.

(** A run of the whole conversion: when the mapping of the STIG blocks
    yields [ps], it returns a record whose snapshot is [convertedValue],
    and it leaves the heap it started from as it was; when the mapping
    throws, it throws. *)
Lemma ChecklistResults_toHdf_throw (this : ChecklistResults) (h : heap)
      (e : exn) :
  mapResult mapProfile' (stigs (checklistObject this)) = Throw e ->
  toHdf' this h = Throw e.
Proof.
  intros Hps. apply toHdf_throw, BaseConverter_toHdf_throw. exact Hps.
Qed.

Lemma ChecklistResults_toHdf_run (this : ChecklistResults) (h : heap)
      (ps : list Profile) :
  mapResult mapProfile' (stigs (checklistObject this)) = Ok ps ->
  exists h',
    toHdf' this h = Ok ((List.length h + List.length ps)%nat, h')
    /\ (List.length h <= List.length h')%nat
    /\ (forall l, (l < List.length h)%nat -> h' !! l = h !! l)
    /\ snapshot h' (List.length h + List.length ps)%nat
       = Ok (converted (checklistObject this) ps).
Proof.
  intros Hps.
  destruct (BaseConverter_toHdf_record (checklistObject this) h ps Hps)
    as (h1 & Hrun1 & Hlen1 & Hframe1 & Hrecord1).
  unfold ChecklistResults_toHdf, convertedValue, convertedProfiles.
  destruct (Nat.eqb_spec (List.length (stigs (checklistObject this))) 1)
    as [Hone|Hmany].
  - exists h1. rewrite toHdf_single by exact Hone.
    split; [exact Hrun1|]. split; [lia|]. split; [exact Hframe1|].
    rewrite (holdsRecord_snapshot _ _ _ _ Hrecord1). reflexivity.
  - destruct (toHdf_aggregates HeimdallToolsVersion generateHash
                stringifyProfile mapper this h h1 _ _ _ Hmany Hrun1 Hrecord1)
      as (h' & Hrun' & Hlen' & Hframe' & Hrecord').
    exists h'. split; [exact Hrun'|]. split; [lia|]. split.
    + intros l Hl. rewrite Hframe'; [apply Hframe1; exact Hl| |lia|lia].
      cbn [profiles]. rewrite elem_of_seq. lia.
    + rewrite (holdsRecord_snapshot _ _ _ _ Hrecord'). reflexivity.
Qed.

Lemma ChecklistResults_toHdf_returns (this : ChecklistResults) (h : heap) :
  detailsParse (checklistObject this) = true ->
  exists l h', toHdf' this h = Ok (l, h').
Proof.
  intros Hdata. destruct (mapProfiles_returns _ Hdata) as [ps Hps].
  destruct (ChecklistResults_toHdf_run this h ps Hps) as (h' & Hrun & _).
  eauto.
Qed.

(** *** Idempotence *)

(** C8: two calls of [toHdf] on the same instance return equal records,
    hashes included, with one STIG block or with several: the second
    call returns what the first returned and leaves the record of the
    first as it was; and when the first call throws, so does every
    other. *)
Theorem toHdf_twice (this : ChecklistResults) (h : heap) :
  match toHdf' this h with
  | Ok (first, h1) =>
      exists second h2 v,
        toHdf' this h1 = Ok (second, h2)
        /\ snapshot h1 first = Ok v
        /\ snapshot h2 second = Ok v
        /\ snapshot h2 first = Ok v
  | Throw e => forall h', toHdf' this h' = Throw e
  end.
Proof.
  destruct (mapResult mapProfile' (stigs (checklistObject this)))
    as [ps|e] eqn:Hps.
  - destruct (ChecklistResults_toHdf_run this h ps Hps)
      as (h1 & Hrun1 & _ & _ & Hsnap1).
    rewrite Hrun1.
    destruct (ChecklistResults_toHdf_run this h1 ps Hps)
      as (h2 & Hrun2 & _ & Hframe & Hsnap2).
    eexists _, h2, _. split; [exact Hrun2|].
    split; [exact Hsnap1|]. split; [exact Hsnap2|].
    eapply snapshot_frame; [exact Hframe | exact Hsnap1].
  - rewrite (ChecklistResults_toHdf_throw this h e Hps).
    intros h'. apply ChecklistResults_toHdf_throw; exact Hps.
Qed.

End MapperProperties.

(** ** Evaluation on the sample inputs *)

Lemma parseFindingDetails_sample_eval :
  parseFindingDetails [sampleFinding (value sampleDetails) Skipped]
  = Ok [ pushedResult ("foo bar" ++ String LF "")%string Passed "";
         pushedResult "ba" Failed
           (String LF "expected: 1" ++ String LF "actual: 2")%string ].
Proof. reflexivity. Qed.

(** ** Impact scoring *)

(** C3: [transformImpact] is [0.0] for a vuln whose status is
    "Not Applicable", whatever its severity; otherwise the effective
    severity, which is the severity override when there is a (non-empty)
    one and the severity else, is mapped without regard to letter case:
    high to [0.7], medium to [0.5], low to [0.3].  The override wins:
    status "Open", severity "high", override "low" gives [0.3]. *)
Theorem transformImpact_by_severity (vuln : ChecklistVuln) :
  (vuln_status vuln = "Not Applicable" -> transformImpact vuln = JNumber 0.0)
  /\ (vuln_status vuln <> "Not Applicable" ->
      (eqIgnoreCase (findSeverity vuln) "high" = true ->
       transformImpact vuln = JNumber 0.7)
      /\ (eqIgnoreCase (findSeverity vuln) "medium" = true ->
          transformImpact vuln = JNumber 0.5)
      /\ (eqIgnoreCase (findSeverity vuln) "low" = true ->
          transformImpact vuln = JNumber 0.3))
  /\ (forall o, severityoverride vuln = value o -> o <> "" ->
                findSeverity vuln = o)
  /\ (truthy (severityoverride vuln) = false ->
      findSeverity vuln = severity vuln)
  /\ (vuln_status vuln = "Open" -> severity vuln = "high" ->
      severityoverride vuln = value "low" ->
      transformImpact vuln = JNumber 0.3).
Proof.
  assert (Hmap : forall w,
             vuln_status vuln <> "Not Applicable" ->
             eqIgnoreCase (findSeverity vuln) w = true ->
             transformImpact vuln = ImpactMapping (toLowerCase w)).
  { intros w Hst Hw. unfold transformImpact.
    apply String.eqb_neq in Hst. rewrite Hst.
    apply eqIgnoreCase_toLowerCase in Hw. rewrite Hw. reflexivity. }
  repeat split.
  - intros Hst. unfold transformImpact. rewrite Hst. reflexivity.
  - intros Hw. apply (Hmap "high"); assumption.
  - intros Hw. apply (Hmap "medium"); assumption.
  - intros Hw. apply (Hmap "low"); assumption.
  - intros o Ho Hne. unfold findSeverity. rewrite Ho.
    destruct o; [contradiction | reflexivity].
  - unfold findSeverity, truthy.
    destruct (severityoverride vuln) as [| |[|c o]]; try reflexivity.
    discriminate.
  - intros Hst Hsev Ho. unfold transformImpact, findSeverity.
    rewrite Hst, Ho. reflexivity.
Qed.

Lemma transformImpact_override_wins :
  transformImpact (sampleVuln "Open" "high" (value "low") undefined)
  = JNumber 0.3.
Proof.
  apply (transformImpact_by_severity
           (sampleVuln "Open" "high" (value "low") undefined));
    reflexivity.
Defined.

(** The case the source leaves unfinished (its comment asks for a check
    that the severity is in [ImpactMapping], and the throw is commented
    out): for a vuln whose status is not "Not Applicable" and whose
    effective severity, in lower case, is no property name of the
    [ImpactMapping] object, the enum lookup finds nothing and
    [transformImpact], declared to return a number, returns
    [undefined]. *)
Theorem transformImpact_unmapped (vuln : ChecklistVuln) :
  vuln_status vuln <> "Not Applicable" ->
  includes impactMappingKeys (toLowerCase (findSeverity vuln)) = false ->
  transformImpact vuln = JUndefined.
Proof.
  intros Hst Hkey. unfold transformImpact.
  apply String.eqb_neq in Hst. rewrite Hst.
  unfold impactMappingKeys in Hkey. cbn [app] in Hkey.
  unfold ImpactMapping.
  do 6 (apply includes_false_cons in Hkey;
        destruct Hkey as [Hk Hkey]; rewrite Hk; clear Hk).
  rewrite Hkey. reflexivity.
Qed.

Lemma transformImpact_unmapped_critical :
  transformImpact (sampleVuln "Open" "critical" undefined undefined)
  = JUndefined.
Proof.
  apply (transformImpact_unmapped
           (sampleVuln "Open" "critical" undefined undefined)).
  - discriminate.
  - reflexivity.
Defined.

(** C4: the code at the failing input.  An open vuln of severity
    "critical" has a status other than "Not Applicable" and a severity
    that is neither high, medium nor low in any letter case; there
    [transformImpact] returns [undefined], no number at all, where the
    property asks for the default [0] and the function's own
    documentation for a number. *)
Lemma transformImpact_no_default :
  let vuln := sampleVuln "Open" "critical" undefined undefined in
  vuln_status vuln <> "Not Applicable"
  /\ ~ In (toLowerCase (findSeverity vuln)) ["high"; "medium"; "low"]
  /\ transformImpact vuln = JUndefined
  /\ forall q, transformImpact vuln <> JNumber q.
Proof.
  cbv zeta. repeat split.
  - discriminate.
  - cbn. intros [H|[H|[H|[]]]]; discriminate.
  - intros q; discriminate.
Qed.

(** ** Status classification *)

(** C5: [getStatus] is total; on the lower-cased input it answers
    [Passed] for "notafinding" and "passed", [Failed] for "open" and
    "failed", [Error] for "error", and [Skipped] for every other string,
    "N/A" among them. *)
Theorem getStatus_total (input : string) :
  (toLowerCase input = "notafinding" \/ toLowerCase input = "passed" ->
   getStatus input = Passed)
  /\ (toLowerCase input = "open" \/ toLowerCase input = "failed" ->
      getStatus input = Failed)
  /\ (toLowerCase input = "error" -> getStatus input = Error)
  /\ (~ In (toLowerCase input)
           ["notafinding"; "passed"; "open"; "failed"; "error"] ->
      getStatus input = Skipped)
  /\ getStatus "N/A" = Skipped
  /\ getStatus "NotAFinding" = Passed
  /\ getStatus "Open" = Failed.
Proof.
  unfold getStatus.
  repeat split; try reflexivity.
  - intros [-> | ->]; reflexivity.
  - intros [-> | ->]; reflexivity.
  - intros ->; reflexivity.
  - intros Hnot. cbn [In] in Hnot.
    repeat match goal with
           | |- context [String.eqb ?a ?b] =>
               let e := fresh "e" in
               destruct (String.eqb_spec a b) as [e|e];
               [exfalso; apply Hnot; rewrite e; tauto|]
           end.
    reflexivity.
Qed.

Lemma getStatus_unrecognized : getStatus "Not_Reviewed" = Skipped.
Proof.
  destruct (getStatus_total "Not_Reviewed") as (_ & _ & _ & Hother & _).
  apply Hother.
  cbn. intros [H|[H|[H|[H|[H|[]]]]]]; discriminate.
Defined.

(** ** Finding-details re-splitting *)

(** C1, as the code has it: the finding details of the example give two
    results; the first is passed and keeps the line feed that ends its
    text, the second is failed, loses the character before the marker
    and keeps the marker's line feed at the head of its message. *)
Theorem parseFindingDetails_sample (st : ControlResultStatus) :
  parseFindingDetails [sampleFinding (value sampleDetails) st]
  = Ok [ {| code_desc := value ("foo bar" ++ String LF "")%string;
            status := Passed;
            message := null;
            start_time := "" |};
         {| code_desc := value "ba";
            status := Failed;
            message :=
              value (String LF "expected: 1" ++ String LF "actual: 2")%string;
            start_time := "" |} ].
Proof. reflexivity. Qed.

(** C1, as the spec has it, fails: the results are not the two with
    code_desc "foo bar" and "baz" and message "expected: 1", line feed,
    "actual: 2". *)
Lemma parseFindingDetails_sample_not_trimmed :
  ~ exists r1 r2,
      parseFindingDetails [sampleFinding (value sampleDetails) Skipped]
      = Ok [r1; r2]
      /\ status r1 = Passed /\ code_desc r1 = value "foo bar"
      /\ status r2 = Failed /\ code_desc r2 = value "baz"
      /\ message r2 = value ("expected: 1" ++ String LF "actual: 2")%string.
Proof.
  intros (r1 & r2 & Hrun & _ & Hc1 & _).
  rewrite parseFindingDetails_sample_eval in Hrun.
  injection Hrun as <- _. discriminate Hc1.
Qed.

(** C6: a segment whose first line is none of the words passed, failed,
    skipped, error (compared as they are written) gives a result whose
    code_desc is the whole segment and whose status is the status of the
    finding it comes from; and whenever [parseFindingDetails] returns,
    that result is among the results. *)
Theorem parseDetails_unrecognized_status
        (finding : ControlResult) (details : string) :
  includes statusSet (fst (splitFirstLine details)) = false ->
  let emitted := {| code_desc := value details;
                    status := status finding;
                    message := null;
                    start_time := "" |} in
  parseDetails finding details = Ok emitted
  /\ forall input results cd,
      In finding input ->
      code_desc finding = value cd -> cd <> "" ->
      In details (split cd detailsSeparator) ->
      parseFindingDetails input = Ok results ->
      In emitted results.
Proof.
  intros Hnot emitted.
  assert (Hone : parseDetails finding details = Ok emitted).
  { unfold parseDetails.
    destruct (splitFirstLine details) as [findingStatus descAndMessage].
    cbn [fst] in Hnot. rewrite Hnot. reflexivity. }
  split; [exact Hone|].
  intros input results cd Hin Hcd Hne Hd Hrun.
  destruct (forEachFinding_In _ _ _ Hrun) as [_ Hall].
  destruct (Hall _ _ _ Hin Hcd Hne Hd) as (r & Hr & Hres).
  rewrite Hone in Hr. injection Hr as <-. exact Hres.
Qed.

Lemma parseDetails_unrecognized_status_sample :
  parseDetails (sampleFinding (value "Reviewed by hand") Failed)
               "Reviewed by hand"
  = Ok {| code_desc := value "Reviewed by hand"; status := Failed;
          message := null; start_time := "" |}.
Proof.
  apply (parseDetails_unrecognized_status
           (sampleFinding (value "Reviewed by hand") Failed)
           "Reviewed by hand").
  reflexivity.
Defined.

(** C9: for a segment whose first line [token] is a status word and
    whose remainder [rem] has its first "\nexpected" at index [k]:
    when [k > 0] the code_desc is the first [k - 1] characters of [rem],
    the character just before the marker being dropped, and the message
    is the rest of [rem] from the marker's line feed on; when [k = 0]
    the whole remainder is the code_desc and the message is [null]. *)
Theorem parseDetails_expected_marker
        (finding : ControlResult) (details token rem : string) (k : Z) :
  splitFirstLine details = (token, Some rem) ->
  includes statusSet token = true ->
  indexOf rem expectedMarker = k ->
  0 <= k ->
  (0 < k ->
   exists tail,
     rem = (substring 0 (Z.to_nat k) rem ++ expectedMarker ++ tail)%string
     /\ parseDetails finding details
        = Ok {| code_desc := value (substring 0 (Z.to_nat (k - 1)) rem);
                status := getStatus token;
                message := value (String LF ("expected" ++ tail));
                start_time := "" |})
  /\ (k = 0 ->
      parseDetails finding details
      = Ok {| code_desc := value rem;
              status := getStatus token;
              message := null;
              start_time := "" |}).
Proof.
  intros Hsplit Hin Hidx Hk.
  unfold parseDetails. rewrite Hsplit, Hin, Hidx. split.
  - intros Hpos.
    destruct (indexOfFrom_found _ _ _ _ (Z.le_refl 0) Hidx Hk)
      as (pre & tail & Hrem & Hlen).
    exists tail.
    destruct (append_last pre) as (init & c & Hpre & Hlast).
    { intros ->. simpl in Hlen. lia. }
    destruct (Z.ltb_spec 0 k) as [_|]; [|lia].
    replace (Z.to_nat k) with (String.length pre) by lia.
    replace (Z.to_nat (k - 1)) with (String.length init) by lia.
    rewrite Hrem.
    rewrite substring_prefix_append.
    rewrite (slice_from pre) by lia.
    rewrite Hpre, append_assoc.
    rewrite (slice_to init) by lia.
    rewrite substring_prefix_append.
    split; reflexivity.
  - intros ->. reflexivity.
Qed.

Lemma parseDetails_expected_marker_sample :
  parseDetails (sampleFinding undefined Skipped)
               ("failed" ++ String LF "baz" ++ String LF "expected: 1")%string
  = Ok {| code_desc := value "ba"; status := Failed;
          message := value (String LF "expected: 1"); start_time := "" |}.
Proof.
  destruct (parseDetails_expected_marker
              (sampleFinding undefined Skipped)
              ("failed" ++ String LF "baz" ++ String LF "expected: 1")%string
              "failed" ("baz" ++ String LF "expected: 1")%string 3
              eq_refl eq_refl eq_refl ltac:(lia)) as [Hpos _].
  destruct (Hpos ltac:(lia)) as (tail & Hrem & Hrun).
  injection Hrem as <-. exact Hrun.
Defined.

(** C10: a finding whose code_desc is empty or absent passes through
    unchanged: wherever it stands in the input, the results are those of
    the findings before it, the finding itself, and those of the
    findings after it. *)
Theorem parseFindingDetails_passes_empty
        (before after : list ControlResult) (finding : ControlResult) :
  truthy (code_desc finding) = false ->
  parseFindingDetails (before ++ finding :: after)
  = do r1 <- parseFindingDetails before;
    do r2 <- parseFindingDetails after;
    Ok (r1 ++ finding :: r2).
Proof.
  intros Hfalsy. unfold parseFindingDetails.
  rewrite forEachFinding_app.
  assert (Hstep : forall r1, forEachFinding (finding :: after) r1
                             = forEachFinding after (r1 ++ [finding])).
  { intros r1. simpl. destruct (code_desc finding) as [| |[|c cd]];
      try reflexivity; discriminate. }
  destruct (forEachFinding before []) as [r1|e]; cbn [JS.bind];
    [|reflexivity].
  rewrite Hstep, forEachFinding_acc.
  destruct (forEachFinding after []) as [r2|e]; simpl; [|reflexivity].
  rewrite <- app_assoc. reflexivity.
Qed.

Lemma parseFindingDetails_passes_empty_sample :
  parseFindingDetails [sampleFinding (value "") Failed]
  = Ok [sampleFinding (value "") Failed].
Proof.
  apply (parseFindingDetails_passes_empty [] []
           (sampleFinding (value "") Failed)).
  reflexivity.
Defined.

(** ** The multi-STIG samples *)

Lemma sampleOriginal_record :
  holdsRecord sampleOriginalHeap 2%nat sampleOriginal sampleBefore.
Proof.
  split; [reflexivity|]. split; [apply (NoDup_seq 0 2)|].
  vm_compute. repeat constructor.
Qed.

Lemma toHdf_parent_profile_sample :
  exists h' children parent,
    sampleToHdf sampleChecklist [] = Ok (2%nat, h')
    /\ List.length (children ++ [parent]) = 3%nat
    /\ List.length (controls parent) = 8%nat
    /\ depends parent
       = value [ {| dep_name := "STIG one" |}; {| dep_name := "STIG two" |} ]
    /\ Forall (fun c => parent_profile c = value "Parent Profile") children.
Proof.
  destruct (toHdf_parent_profile
              "2.10.0" sampleHash sampleStringifyProfile sampleMapper
              sampleChecklist [] sampleOriginalHeap 2%nat
              sampleOriginal sampleBefore)
    as (h' & children & parent & Hrun & _ & _ & _ & Hname & _ & _ & Hall & Hex).
  - vm_compute. lia.
  - vm_compute. reflexivity.
  - exact sampleOriginal_record.
  - destruct (Hex _ _ eq_refl eq_refl eq_refl eq_refl eq_refl)
      as (Hlen & Hcontrols & Hdeps).
    exists h', children, parent.
    rewrite Hname in Hall. repeat split; assumption.
Defined.

Lemma toHdf_hashes_after_mutation_sample :
  exists h' children parent v,
    sampleToHdf sampleChecklist [] = Ok (2%nat, h')
    /\ snapshot h' 2%nat = Ok v
    /\ ev_profiles v = children ++ [parent]
    /\ sha256 parent
       = sampleHash (sampleStringifyProfile (set_sha256 "" parent)).
Proof.
  destruct (toHdf_hashes_after_mutation
              "2.10.0" sampleHash sampleStringifyProfile sampleMapper
              sampleChecklist [] sampleOriginalHeap 2%nat
              sampleOriginal sampleBefore)
    as (h' & children & parent & Hrun & Hsnap & _ & _ & _ & Hsha).
  - vm_compute. lia.
  - vm_compute. reflexivity.
  - exact sampleOriginal_record.
  - exists h', children, parent. eexists.
    split; [exact Hrun|]. split; [exact Hsnap|]. split; [reflexivity|].
    exact Hsha.
Defined.

Lemma toHdf_twice_sample :
  match sampleToHdf sampleChecklist [] with
  | Ok (first, h1) =>
      exists second h2 v,
        sampleToHdf sampleChecklist h1 = Ok (second, h2)
        /\ snapshot h1 first = Ok v
        /\ snapshot h2 second = Ok v
        /\ snapshot h2 first = Ok v
  | Throw _ => False
  end.
Proof.
  pose proof (toHdf_twice
                "2.10.0" sampleHash sampleStringifyProfile
                sampleStringifyControls (fun _ => "") (fun ids _ => ids) []
                sampleChecklist []) as Htwice.
  change (ChecklistResults_toHdf _ _ _ _ _ _ _) with sampleToHdf in Htwice.
  destruct (sampleToHdf sampleChecklist []) as [[first h1]|e] eqn:Hfirst.
  - exact Htwice.
  - vm_compute in Hfirst. discriminate Hfirst.
Defined.

(** * Further properties of the transformers *)

(** ** Splitting on a separator *)

Lemma splitFrom_not_nil (sep : string) (skip : nat) (piece : list ascii)
      (s : string) :
  splitFrom sep skip piece s <> [].
Proof.
  revert skip piece; induction s as [|c s IH]; intros skip piece;
    cbn [splitFrom].
  - discriminate.
  - destruct skip as [|k]; [|apply IH].
    destruct (String.prefix sep (String c s)); [discriminate | apply IH].
Qed.

(** ** When [parseFindingDetails] returns *)

Lemma forEachDetails_throws (finding : ControlResult) (segs : list string)
      (acc : list ControlResult) :
  forallb (fun d => negb (includes statusSet d)) segs = false ->
  forEachDetails finding segs acc = Throw TypeError.
Proof.
  revert acc; induction segs as [|d segs IH]; intros acc H;
    cbn [forallb forEachDetails] in *.
  - discriminate.
  - destruct (includes statusSet d) eqn:Hd; cbn [negb andb] in H.
    + rewrite (parseDetails_bare_status_word finding d Hd). reflexivity.
    + destruct (parseDetails_returns finding d Hd) as [r ->].
      cbn [JS.bind]. apply IH; assumption.
Qed.

Lemma forEachFinding_throws (fs acc : list ControlResult) :
  forallb (fun f => segmentsParse (code_desc f)) fs = false ->
  forEachFinding fs acc = Throw TypeError.
Proof.
  revert acc; induction fs as [|f fs IH]; intros acc H;
    cbn [forallb forEachFinding] in *.
  - discriminate.
  - destruct (segmentsParse (code_desc f)) eqn:Hf; cbn [andb] in H.
    + destruct (code_desc f) as [| |[|c cd]]; try (apply IH; assumption).
      destruct (forEachDetails_returns f _ acc Hf) as [res ->].
      cbn [JS.bind]. apply IH; assumption.
    + destruct (code_desc f) as [| |[|c cd]];
        try (cbn in Hf; discriminate Hf).
      rewrite (forEachDetails_throws f _ acc Hf). reflexivity.
Qed.

(** X1: [parseFindingDetails] returns exactly on the inputs none of
    whose non-empty finding details has a segment that is a status word
    and nothing else; on every other input it throws a [TypeError], the
    text after the status line being [undefined]. *)
Theorem parseFindingDetails_returns_iff (input : list ControlResult) :
  if forallb (fun f => segmentsParse (code_desc f)) input
  then exists results, parseFindingDetails input = Ok results
  else parseFindingDetails input = Throw TypeError.
Proof.
  unfold parseFindingDetails.
  destruct (forallb _ input) eqn:H.
  - apply forEachFinding_returns; exact H.
  - apply forEachFinding_throws; exact H.
Qed.

(** X2: the results of a concatenation of inputs are the results of the
    first followed by the results of the second; a throw in either is a
    throw of the whole. *)
Theorem parseFindingDetails_app (xs ys : list ControlResult) :
  parseFindingDetails (xs ++ ys)
  = do r1 <- parseFindingDetails xs;
    do r2 <- parseFindingDetails ys;
    Ok (r1 ++ r2).
Proof.
  unfold parseFindingDetails. rewrite forEachFinding_app.
  destruct (forEachFinding xs []) as [r1|e]; cbn [JS.bind]; [|reflexivity].
  apply forEachFinding_acc.
Qed.

(** ** The shape of the results *)

Lemma forEachDetails_Forall2 (f : ControlResult) (segs : list string)
      (acc res : list ControlResult) :
  forEachDetails f segs acc = Ok res ->
  exists rs, res = acc ++ rs
             /\ Forall2 (fun d r => parseDetails f d = Ok r) segs rs.
Proof.
  revert acc; induction segs as [|d segs IH]; intros acc H; simpl in H.
  - injection H as <-. exists []. rewrite app_nil_r. split; constructor.
  - destruct (parseDetails f d) as [r|e] eqn:Hd; simpl in H; [|discriminate].
    destruct (IH _ H) as (rs & -> & Hrs).
    exists (r :: rs). rewrite <- app_assoc. split; [reflexivity|].
    constructor; assumption.
Qed.

Lemma forEachFinding_Forall2 (fs acc res : list ControlResult) :
  forEachFinding fs acc = Ok res ->
  exists rss, res = acc ++ concat rss /\ Forall2 contributes fs rss.
Proof.
  revert acc; induction fs as [|f fs IH]; intros acc H; simpl in H.
  - injection H as <-. exists []. simpl. rewrite app_nil_r.
    split; constructor.
  - unfold contributes at 1.
    destruct (code_desc f) as [| |[|c cd]] eqn:Hcd.
    1-3: destruct (IH _ H) as (rss & -> & Hrss);
      exists ([f] :: rss); simpl; rewrite <- app_assoc;
      (split; [reflexivity|]); constructor; [|assumption];
      unfold contributes; rewrite Hcd; reflexivity.
    destruct (forEachDetails f _ acc) as [res'|e] eqn:Hres; simpl in H;
      [|discriminate].
    destruct (forEachDetails_Forall2 _ _ _ _ Hres) as (rs & -> & Hrs).
    destruct (IH _ H) as (rss & -> & Hrss).
    exists (rs :: rss). simpl. rewrite <- app_assoc.
    split; [reflexivity|]. constructor; [|assumption].
    unfold contributes; rewrite Hcd; exact Hrs.
Qed.

(** X3: when [parseFindingDetails] returns, its results are the
    contributions of the findings, concatenated in the order of the
    input: for a finding with finding details, one result per segment in
    the order of the segments; for a finding without, the finding
    itself.  Every finding contributes at least one result, so none is
    dropped. *)
Theorem parseFindingDetails_in_order
        (input results : list ControlResult) :
  parseFindingDetails input = Ok results ->
  exists rss,
    results = concat rss
    /\ Forall2 contributes input rss
    /\ Forall (fun rs => rs <> []) rss
    /\ (List.length input <= List.length results)%nat.
Proof.
  intros H. destruct (forEachFinding_Forall2 _ _ _ H) as (rss & -> & Hrss).
  assert (Hne : Forall (fun rs => rs <> []) rss).
  { clear H. induction Hrss as [|f rs fs rss Hf _ IH]; constructor; auto.
    unfold contributes in Hf.
    destruct (code_desc f) as [| |[|c cd]]; try (subst; discriminate).
    intros ->. inversion Hf as [Hsplit|]. symmetry in Hsplit.
    exact (splitFrom_not_nil _ _ _ _ Hsplit). }
  exists rss. cbn [app]. repeat split; try assumption.
  clear H. induction Hrss as [|f rs fs rss _ _ IH]; [reflexivity|].
  apply Forall_cons_1 in Hne as [Hrs Hne]. specialize (IH Hne).
  cbn [concat List.length]. rewrite length_app.
  destruct rs; [contradiction|]. cbn [List.length]. lia.
Qed.

Lemma parseFindingDetails_in_order_sample :
  exists rss,
    Forall2 contributes
      [sampleFinding (value sampleDetails) Skipped;
       sampleFinding undefined Failed] rss
    /\ List.length (concat rss) = 3%nat.
Proof.
  destruct (parseFindingDetails_in_order
              [sampleFinding (value sampleDetails) Skipped;
               sampleFinding undefined Failed]
              [ pushedResult ("foo bar" ++ String LF "")%string Passed "";
                pushedResult "ba" Failed
                  (String LF "expected: 1" ++ String LF "actual: 2")%string;
                sampleFinding undefined Failed ] eq_refl)
    as (rss & Hres & Hrss & _).
  exists rss. split; [exact Hrss|]. rewrite <- Hres. reflexivity.
Defined.

Lemma parseDetails_result_shape (finding r : ControlResult)
      (details : string) :
  parseDetails finding details = Ok r ->
  start_time r = ""
  /\ (exists s, code_desc r = value s)
  /\ message r <> undefined
  /\ message r <> value "".
Proof.
  assert (Hpushed : forall cd st m,
             start_time (pushedResult cd st m) = ""
             /\ (exists s, code_desc (pushedResult cd st m) = value s)
             /\ message (pushedResult cd st m) <> undefined
             /\ message (pushedResult cd st m) <> value "").
  { intros cd st m. split; [reflexivity|]. split; [eexists; reflexivity|].
    destruct m; split; discriminate. }
  unfold parseDetails.
  destruct (splitFirstLine details) as [token rest].
  destruct (includes statusSet token).
  - destruct rest as [rest|]; [|discriminate].
    destruct (0 <? indexOf rest expectedMarker);
      intros H; injection H as <-; apply Hpushed.
  - intros H; injection H as <-; apply Hpushed.
Qed.

(** X4: every result of [parseFindingDetails] is either a finding of
    the input that has no finding details, passed on as it is, or a
    result made from a segment: its [start_time] is empty, its
    [code_desc] is a string, and its [message] is [null] or a non-empty
    string, never [undefined] and never the empty string. *)
Theorem parseFindingDetails_result_shape
        (input results : list ControlResult) :
  parseFindingDetails input = Ok results ->
  Forall (fun r =>
            (In r input /\ truthy (code_desc r) = false)
            \/ (start_time r = ""
                /\ (exists s, code_desc r = value s)
                /\ message r <> undefined
                /\ message r <> value ""))
         results.
Proof.
  intros H. destruct (forEachFinding_Forall2 _ _ _ H) as (rss & -> & Hrss).
  clear H. cbn [app]. apply List.Forall_forall. intros r Hr.
  apply in_concat in Hr as (rs & Hrs & Hr).
  induction Hrss as [|f rs' fs rss Hf _ IH]; [destruct Hrs|].
  destruct Hrs as [<-|Hrs].
  - unfold contributes in Hf.
    destruct (code_desc f) as [| |[|c cd]] eqn:Hcd.
    1-3: subst rs'; destruct Hr as [<-|[]]; left;
      (split; [left; reflexivity | rewrite Hcd; reflexivity]).
    right. clear Hcd IH.
    induction Hf as [|d r' ds rs'' Hd _ IHf]; [destruct Hr|].
    destruct Hr as [<-|Hr]; [|apply IHf; exact Hr].
    eapply parseDetails_result_shape; exact Hd.
  - destruct (IH Hrs) as [[Hin Hfalsy]|Hshape]; [left|right; exact Hshape].
    split; [right; exact Hin | exact Hfalsy].
Qed.

Lemma parseFindingDetails_result_shape_sample :
  Forall (fun r => message r <> value "")
         [ pushedResult ("foo bar" ++ String LF "")%string Passed "";
           pushedResult "ba" Failed
             (String LF "expected: 1" ++ String LF "actual: 2")%string ].
Proof.
  pose proof (parseFindingDetails_result_shape
                [sampleFinding (value sampleDetails) Skipped]
                [ pushedResult ("foo bar" ++ String LF "")%string Passed "";
                  pushedResult "ba" Failed
                    (String LF "expected: 1" ++ String LF "actual: 2")%string ]
                eq_refl)
    as Hall.
  eapply Forall_impl; [exact Hall|].
  intros r [[[Hin|[]] Hfalsy]|(_ & _ & _ & Hmsg)]; [|exact Hmsg].
  subst r. discriminate Hfalsy.
Defined.

(** ** Segments that begin with a status word *)

(** X5: a segment whose first line is a status word, with text after
    it, gives the same result whatever the finding it comes from: the
    finding's own status is not consulted, and the status of the result
    is the one the word names. *)
Theorem parseDetails_status_word
        (details token rem : string) :
  splitFirstLine details = (token, Some rem) ->
  includes statusSet token = true ->
  exists r,
    (forall finding, parseDetails finding details = Ok r)
    /\ In (token, status r)
          [ ("passed", Passed); ("failed", Failed);
            ("skipped", Skipped); ("error", Error) ].
Proof.
  intros Hsplit Hin. unfold parseDetails. rewrite Hsplit, Hin.
  apply includes_In in Hin. cbn [statusSet In] in Hin.
  destruct (0 <? indexOf rem expectedMarker);
    (eexists; split; [intros finding; reflexivity|]);
    cbn [status pushedResult];
    destruct Hin as [<-|[<-|[<-|[<-|[]]]]]; cbn; tauto.
Qed.

Lemma parseDetails_status_word_sample :
  exists r,
    parseDetails (sampleFinding undefined Failed)
                 ("skipped" ++ String LF "not run")%string = Ok r
    /\ status r = Skipped.
Proof.
  destruct (parseDetails_status_word
              ("skipped" ++ String LF "not run")%string
              "skipped" "not run" eq_refl eq_refl) as (r & Hr & Hstatus).
  exists r. split; [apply Hr|].
  cbn [In] in Hstatus.
  destruct Hstatus as [H|[H|[H|[H|[]]]]];
    try discriminate H; injection H as <-; reflexivity.
Defined.

Lemma indexOfFrom_absent (pat s : string) (i : Z) :
  (forall pre tail, s <> (pre ++ pat ++ tail)%string) ->
  indexOfFrom pat s i = -1.
Proof.
  revert i; induction s as [|c s IH]; intros i Habsent;
    rewrite indexOfFrom_unfold.
  - destruct (String.prefix pat "") eqn:Hp; [|reflexivity].
    destruct (prefix_append _ _ Hp) as [tail Htail].
    destruct (Habsent "" tail). exact Htail.
  - destruct (String.prefix pat (String c s)) eqn:Hp.
    + destruct (prefix_append _ _ Hp) as [tail Htail].
      destruct (Habsent "" tail). exact Htail.
    + apply IH. intros pre tail ->.
      apply (Habsent (String c pre) tail). reflexivity.
Qed.

(** X6: for a segment whose first line is a status word and whose
    remainder nowhere has the marker, a line feed followed by
    "expected", the whole remainder is the code_desc and the message is
    [null]. *)
Theorem parseDetails_no_marker
        (finding : ControlResult) (details token rem : string) :
  splitFirstLine details = (token, Some rem) ->
  includes statusSet token = true ->
  (forall pre tail, rem <> (pre ++ expectedMarker ++ tail)%string) ->
  parseDetails finding details
  = Ok {| code_desc := value rem;
          status := getStatus token;
          message := null;
          start_time := "" |}.
Proof.
  intros Hsplit Hin Habsent.
  unfold parseDetails. rewrite Hsplit, Hin.
  unfold indexOf. rewrite (indexOfFrom_absent _ _ 0 Habsent).
  reflexivity.
Qed.

Lemma parseDetails_no_marker_sample :
  parseDetails (sampleFinding undefined Failed)
               ("passed" ++ String LF "ok")%string
  = Ok {| code_desc := value "ok"; status := Passed;
          message := null; start_time := "" |}.
Proof.
  apply (parseDetails_no_marker
           (sampleFinding undefined Failed)
           ("passed" ++ String LF "ok")%string "passed" "ok");
    [reflexivity | reflexivity |].
  intros pre tail H.
  apply (f_equal String.length) in H.
  rewrite !length_append in H. cbn in H. lia.
Defined.

(** ** Splitting and joining *)

Lemma string_of_list_ascii_app (l m : list ascii) :
  string_of_list_ascii (l ++ m)
  = (string_of_list_ascii l ++ string_of_list_ascii m)%string.
Proof.
  induction l as [|c l IH]; simpl; [reflexivity | rewrite IH; reflexivity].
Qed.

Lemma append_empty_r (s : string) : (s ++ "")%string = s.
Proof.
  induction s as [|c s IH]; simpl; [reflexivity | rewrite IH; reflexivity].
Qed.

Lemma prefix_of_append (sep t : string) : String.prefix sep (sep ++ t) = true.
Proof.
  induction sep as [|c sep IH]; simpl; [destruct t; reflexivity|].
  destruct (ascii_dec c c); [exact IH | contradiction].
Qed.

(** Passing over the rest of a separator. *)
Lemma splitFrom_skip (sep t s : string) (piece : list ascii) :
  splitFrom sep (String.length t) piece (t ++ s) = splitFrom sep O piece s.
Proof.
  induction t as [|c t IH]; [reflexivity|]. cbn [String.length append].
  cbn [splitFrom]. exact IH.
Qed.

(** What [splitFrom] does at a position where the separator begins, and
    at one where it does not. *)
Lemma splitFrom_match (sep tail : string) (c : ascii) (sep' : string)
      (piece : list ascii) :
  sep = String c sep' ->
  splitFrom sep O piece (sep ++ tail)
  = string_of_list_ascii (rev piece) :: splitFrom sep O [] tail.
Proof.
  intros ->. cbn [append splitFrom].
  change (String c (sep' ++ tail)) with (String c sep' ++ tail)%string.
  rewrite prefix_of_append. f_equal.
  cbn [String.length Nat.sub]. rewrite Nat.sub_0_r. apply splitFrom_skip.
Qed.

Lemma splitFrom_no_match (sep s : string) (c : ascii) (piece : list ascii) :
  String.prefix sep (String c s) = false ->
  splitFrom sep O piece (String c s) = splitFrom sep O (c :: piece) s.
Proof. intros H. cbn [splitFrom]. rewrite H. reflexivity. Qed.

Lemma concat_cons (sep x : string) (xs : list string) :
  xs <> [] ->
  String.concat sep (x :: xs) = (x ++ sep ++ String.concat sep xs)%string.
Proof. destruct xs; [contradiction | reflexivity]. Qed.

(** Joining the pieces with the separator gives back the string. *)
Lemma splitFrom_concat (sep : string) (n : nat) (s : string)
      (piece : list ascii) :
  sep <> "" -> (String.length s <= n)%nat ->
  String.concat sep (splitFrom sep O piece s)
  = (string_of_list_ascii (rev piece) ++ s)%string.
Proof.
  intros Hsep. revert s piece.
  induction n as [|n IH]; intros s piece Hlen.
  - destruct s; [|simpl in Hlen; lia]. cbn. rewrite append_empty_r.
    reflexivity.
  - destruct s as [|c s]; [cbn; rewrite append_empty_r; reflexivity|].
    destruct (String.prefix sep (String c s)) eqn:Hp.
    + destruct (prefix_append _ _ Hp) as [tail Htail].
      destruct sep as [|c' sep'] eqn:Esep; [contradiction|].
      rewrite <- Esep in *. rewrite Htail.
      rewrite (splitFrom_match sep tail c' sep') by exact Esep.
      rewrite concat_cons by apply splitFrom_not_nil.
      rewrite IH; [reflexivity|].
      apply (f_equal String.length) in Htail.
      rewrite length_append, Esep in Htail. simpl in Htail, Hlen. lia.
    + rewrite splitFrom_no_match by exact Hp.
      rewrite IH by (simpl in Hlen; lia).
      cbn [rev]. rewrite string_of_list_ascii_app, append_assoc.
      reflexivity.
Qed.

Lemma split_concat (s sep : string) :
  sep <> "" -> String.concat sep (split s sep) = s.
Proof.
  intros Hsep. unfold split.
  rewrite (splitFrom_concat sep (String.length s)) by auto. reflexivity.
Qed.

(** X7: [cciRef] loses nothing: it never gives an empty array, and its
    elements joined with semicolon-space are the input again. *)
Theorem cciRef_join (input : string) :
  cciRef input <> [] /\ String.concat "; " (cciRef input) = input.
Proof.
  split; [apply splitFrom_not_nil|].
  apply split_concat. discriminate.
Qed.

Lemma append_snoc_split (p a b : string) (c : ascii) :
  (p ++ String c "")%string = (a ++ b)%string -> b <> "" ->
  exists b0, b = (b0 ++ String c "")%string /\ p = (a ++ b0)%string.
Proof.
  revert p; induction a as [|x a IH]; intros p H Hb; cbn [append] in H.
  - exists p. split; [symmetry; exact H | reflexivity].
  - destruct p as [|y p]; cbn [append] in H.
    + injection H as _ H. destruct a; [|discriminate].
      cbn [append] in H. congruence.
    + injection H as -> H. destruct (IH p H Hb) as (b0 & -> & ->).
      exists b0. split; reflexivity.
Qed.

(** No piece has the separator in it: the scan would have cut there. *)
Lemma splitFrom_pieces (sep : string) (n : nat) (s : string)
      (piece : list ascii) :
  sep <> "" -> (String.length s <= n)%nat ->
  (forall a b, string_of_list_ascii (rev piece) = (a ++ b)%string ->
               b <> "" -> String.prefix sep (b ++ s) = false) ->
  forall x, In x (splitFrom sep O piece s) ->
            forall pre post, x <> (pre ++ sep ++ post)%string.
Proof.
  intros Hsep. revert s piece.
  assert (Hcut : forall piece s,
             (forall a b, string_of_list_ascii (rev piece) = (a ++ b)%string ->
                          b <> "" -> String.prefix sep (b ++ s) = false) ->
             forall pre post,
               string_of_list_ascii (rev piece) <> (pre ++ sep ++ post)%string).
  { intros piece s Hinv pre post Heq.
    assert (Hb : (sep ++ post)%string <> "").
    { destruct sep; [contradiction | discriminate]. }
    pose proof (Hinv pre (sep ++ post)%string Heq Hb) as Hfalse.
    rewrite append_assoc, prefix_of_append in Hfalse. discriminate. }
  induction n as [|n IH]; intros s piece Hlen Hinv x Hx.
  - destruct s; [|simpl in Hlen; lia]. cbn in Hx.
    destruct Hx as [<-|[]]. eapply Hcut; exact Hinv.
  - destruct s as [|c s].
    { cbn in Hx. destruct Hx as [<-|[]]. eapply Hcut; exact Hinv. }
    destruct (String.prefix sep (String c s)) eqn:Hp.
    + destruct (prefix_append _ _ Hp) as [tail Htail].
      destruct sep as [|c' sep'] eqn:Esep; [contradiction|].
      rewrite <- Esep in *. rewrite Htail in Hx.
      rewrite (splitFrom_match sep tail c' sep') in Hx by exact Esep.
      destruct Hx as [<-|Hx]; [eapply Hcut; exact Hinv|].
      apply (IH tail []); [| |exact Hx].
      * apply (f_equal String.length) in Htail.
        rewrite length_append, Esep in Htail. simpl in Htail, Hlen. lia.
      * intros a b Hab Hb. cbn in Hab.
        destruct a; [|discriminate]. cbn in Hab. congruence.
    + rewrite splitFrom_no_match in Hx by exact Hp.
      apply (IH s (c :: piece)); [simpl in Hlen; lia| |exact Hx].
      intros a b Hab Hb. cbn [rev] in Hab.
      rewrite string_of_list_ascii_app in Hab. cbn in Hab.
      destruct (append_snoc_split _ _ _ _ Hab Hb) as (b0 & -> & Hpiece).
      rewrite append_assoc. cbn [append].
      destruct b0 as [|y b0]; [exact Hp|].
      apply (Hinv a (String y b0) Hpiece). discriminate.
Qed.

Lemma split_pieces (s sep x : string) :
  sep <> "" -> In x (split s sep) ->
  forall pre post, x <> (pre ++ sep ++ post)%string.
Proof.
  intros Hsep Hx. unfold split in Hx.
  apply (splitFrom_pieces sep (String.length s) s []); auto.
  intros a b Hab Hb. cbn in Hab. destruct a; [|discriminate].
  cbn in Hab. congruence.
Qed.

(** X8: no element of [cciRef] has the separator, semicolon-space, in
    it. *)
Theorem cciRef_elements (input x : string) :
  In x (cciRef input) ->
  forall pre post, x <> (pre ++ "; " ++ post)%string.
Proof. apply split_pieces. discriminate. Qed.

Lemma cciRef_elements_sample :
  In "CCI-000366" (cciRef "CCI-000366; CCI-001199")
  /\ ~ exists pre post, "CCI-000366" = (pre ++ "; " ++ post)%string.
Proof.
  assert (Hin : In "CCI-000366" (cciRef "CCI-000366; CCI-001199"))
    by (left; reflexivity).
  split; [exact Hin|].
  intros (pre & post & Heq).
  exact (cciRef_elements "CCI-000366; CCI-001199" "CCI-000366" Hin
                         pre post Heq).
Defined.

(** X9: the results a finding with finding details contributes cover
    the details exactly: they are made, one each and in order, from
    segments that, joined with the separator line, give the finding
    details back, and none of which has the separator line in it. *)
Theorem parseFindingDetails_covers
        (finding : ControlResult) (cd : string)
        (results : list ControlResult) :
  code_desc finding = value cd -> cd <> "" ->
  parseFindingDetails [finding] = Ok results ->
  exists segments,
    Forall2 (fun d r => parseDetails finding d = Ok r) segments results
    /\ String.concat detailsSeparator segments = cd
    /\ Forall (fun d => forall pre post,
                 d <> (pre ++ detailsSeparator ++ post)%string) segments.
Proof.
  intros Hcd Hne Hrun.
  assert (Hsep : detailsSeparator <> "") by discriminate.
  exists (split cd detailsSeparator).
  split; [|split].
  - unfold parseFindingDetails in Hrun. cbn [forEachFinding] in Hrun.
    rewrite Hcd in Hrun. destruct cd as [|c cd]; [contradiction|].
    destruct (forEachDetails finding _ []) as [res|e] eqn:Hres;
      cbn [JS.bind] in Hrun; [|discriminate].
    injection Hrun as <-.
    destruct (forEachDetails_Forall2 _ _ _ _ Hres) as (rs & -> & Hrs).
    exact Hrs.
  - apply split_concat; exact Hsep.
  - apply List.Forall_forall. intros d Hd.
    apply (split_pieces cd detailsSeparator); assumption.
Qed.

Lemma parseFindingDetails_covers_sample :
  exists segments,
    String.concat detailsSeparator segments = sampleDetails
    /\ List.length segments = 2%nat.
Proof.
  destruct (parseFindingDetails_covers
              (sampleFinding (value sampleDetails) Skipped) sampleDetails
              [ pushedResult ("foo bar" ++ String LF "")%string Passed "";
                pushedResult "ba" Failed
                  (String LF "expected: 1" ++ String LF "actual: 2")%string ]
              eq_refl ltac:(discriminate) eq_refl)
    as (segments & Hsegs & Hjoin & _).
  exists segments. split; [exact Hjoin|].
  apply Forall2_length in Hsegs. exact Hsegs.
Defined.

(** ** The tags transformer *)

Lemma flat_map_keys_NoDup (F : string -> string -> option string)
      (paths : list (string * string)) :
  List.NoDup (map fst paths) ->
  List.NoDup
    (map fst
       (flat_map (fun '(key, path) =>
                    match F key path with
                    | Some v => [(key, v)]
                    | None => []
                    end) paths)).
Proof.
  induction paths as [|[key path] paths IH]; intros Hnd; cbn.
  - constructor.
  - inversion Hnd as [|? ? Hnotin Hnd']; subst.
    destruct (F key path) as [v|]; cbn; [|apply IH; exact Hnd'].
    constructor; [|apply IH; exact Hnd'].
    intros Hin. apply Hnotin.
    apply in_map_iff in Hin as ([k x] & Hk & Hin). cbn in Hk. subst k.
    apply in_flat_map in Hin as ([k' p'] & Hin' & Hx).
    destruct (F k' p'); [|destruct Hx].
    destruct Hx as [Hx|[]]. injection Hx as -> _.
    apply in_map_iff. exists (key, p'). split; [reflexivity | exact Hin'].
Qed.

(** X10: the tags transformer copies a tag exactly when the vuln has
    the field of that tag, non-empty and other than the bare separator
    semicolon-space; it never emits an empty tag, and no tag name comes
    twice. *)
Theorem extraTags_spec (input : ChecklistVuln) :
  List.NoDup (map fst (extraTags input))
  /\ forall key x,
      In (key, x) (extraTags input)
      <-> exists path,
            In (key, path) tagPaths
            /\ get (otherFields input) path = value x
            /\ x <> "" /\ x <> "; ".
Proof.
  split.
  - unfold extraTags.
    pose proof (flat_map_keys_NoDup
                  (fun _ path =>
                     match get (otherFields input) path with
                     | value v =>
                         if truthy (value v) && negb (String.eqb v "; ")
                         then Some v else None
                     | _ => None
                     end) tagPaths) as Hnd.
    match type of Hnd with
    | _ -> List.NoDup (map fst ?l) =>
        match goal with
        | |- List.NoDup (map fst ?l') => replace l' with l
        end
    end.
    + apply Hnd. cbn.
      repeat (constructor; [cbn; intuition discriminate|]). constructor.
    + apply flat_map_ext. intros [key path].
      destruct (get (otherFields input) path) as [| |v]; try reflexivity.
      destruct (truthy (value v) && negb (String.eqb v "; ")); reflexivity.
  - intros key x. unfold extraTags. rewrite in_flat_map. split.
    + intros ([key' path] & Hin & Hx).
      destruct (get (otherFields input) path) as [| |v] eqn:Hget;
        try destruct Hx.
      destruct (truthy (value v) && negb (String.eqb v "; ")) eqn:Hok;
        [|destruct Hx].
      destruct Hx as [Hx|[]]. injection Hx as -> ->.
      apply andb_true_iff in Hok as [Hne Hsep].
      exists path. split; [exact Hin|]. split; [exact Hget|]. split.
      * intros ->. discriminate Hne.
      * apply negb_true_iff, String.eqb_neq in Hsep. exact Hsep.
    + intros (path & Hin & Hget & Hne & Hsep).
      exists (key, path). split; [exact Hin|]. rewrite Hget.
      apply String.eqb_neq in Hsep. rewrite Hsep.
      destruct x; [contradiction|]. left. reflexivity.
Qed.

(** ** The kinds of impact *)

(** X11: [transformImpact] gives a number exactly when the status is
    "Not Applicable" or the effective severity, in lower case, is high,
    medium or low, and the number is then one of [0.0], [0.3], [0.5],
    [0.7], so between 0 and 1; on every other vuln it gives no number
    at all. *)
Theorem transformImpact_number (vuln : ChecklistVuln) :
  match transformImpact vuln with
  | JNumber q =>
      In q [0.0; 0.3; 0.5; 0.7]%Q
      /\ (0 <= q)%Q /\ (q <= 1)%Q
      /\ (vuln_status vuln = "Not Applicable"
          \/ In (toLowerCase (findSeverity vuln)) ["high"; "medium"; "low"])
  | _ =>
      vuln_status vuln <> "Not Applicable"
      /\ ~ In (toLowerCase (findSeverity vuln)) ["high"; "medium"; "low"]
  end.
Proof.
  unfold transformImpact.
  destruct (String.eqb_spec (vuln_status vuln) "Not Applicable") as [Hna|Hna].
  { split; [cbn; tauto|]. repeat split; try discriminate. left; exact Hna. }
  unfold ImpactMapping.
  set (key := toLowerCase (findSeverity vuln)).
  destruct (String.eqb_spec key "high") as [->|Hh].
  { split; [cbn; tauto|]. repeat split; try discriminate. right; cbn; tauto. }
  destruct (String.eqb_spec key "medium") as [->|Hm].
  { split; [cbn; tauto|]. repeat split; try discriminate. right; cbn; tauto. }
  destruct (String.eqb_spec key "low") as [->|Hl].
  { split; [cbn; tauto|]. repeat split; try discriminate. right; cbn; tauto. }
  assert (Hnone : ~ In key ["high"; "medium"; "low"]).
  { cbn. intros [H|[H|[H|[]]]]; congruence. }
  destruct (String.eqb key "0.7"); [split; assumption|].
  destruct (String.eqb key "0.5"); [split; assumption|].
  destruct (String.eqb key "0.3"); [split; assumption|].
  destruct (includes objectPrototypeKeys key); split; assumption.
Qed.

(** ** Where the remainder is cut *)




(** * Further properties of [ChecklistResults.toHdf] *)

Section AggregationEdges.

Variable HeimdallToolsVersion : string.
Variable generateHash : string -> string.
Variable stringifyProfile : Profile -> string.
Variable mapper : ChecklistObject -> M loc.

Local Abbreviation toHdf' :=
  (toHdf HeimdallToolsVersion generateHash stringifyProfile mapper).
Local Abbreviation parentWith' := (parentWith HeimdallToolsVersion).

(** X13: a checklist without any STIG block takes the branch of the
    several: the record the mapper returned, which has no profile, gets
    the parent profile as its only profile, with no dependency, no
    control, and the hash of its serialization in that state. *)
Theorem toHdf_no_stig (this : ChecklistResults) (h h1 : heap)
        (original : loc) (e : Execution) :
  stigs (checklistObject this) = [] ->
  mapper (checklistObject this) h = Ok (original, h1) ->
  holdsRecord h1 original e [] ->
  exists h',
    toHdf' this h = Ok (original, h')
    /\ snapshot h' original
       = Ok {| ev_platform_name := platform_name e;
               ev_platform_release := platform_release e;
               ev_version := exec_version e;
               ev_profiles :=
                 [ parentWith' [] []
                     (generateHash (stringifyProfile (parentWith' [] [] ""))) ];
               ev_passthrough := passthrough e |}.
Proof.
  intros Hnone Hrun Hrecord.
  destruct (toHdf_aggregates HeimdallToolsVersion generateHash
              stringifyProfile mapper this h h1 original e [])
    as (h' & Hrun' & _ & _ & Hrecord');
    [rewrite Hnone; discriminate | assumption | assumption |].
  exists h'. split; [exact Hrun'|].
  rewrite (holdsRecord_snapshot _ _ _ _ Hrecord'). reflexivity.
Qed.


End AggregationEdges.

Lemma toHdf_no_stig_sample :
  exists h' parent,
    sampleToHdf sampleEmpty [] = Ok (0%nat, h')
    /\ readProfile h' 1%nat = Ok parent
    /\ depends parent = value []
    /\ controls parent = [].
Proof.
  destruct (toHdf_no_stig
              "2.10.0" sampleHash sampleStringifyProfile sampleMapper
              sampleEmpty [] [OExecution sampleEmptyRecord] 0%nat
              sampleEmptyRecord)
    as (h' & Hrun & _).
  - reflexivity.
  - reflexivity.
  - split; [reflexivity|]. split; constructor.
  - exists h'. eexists. split; [exact Hrun|].
    unfold sampleToHdf in Hrun. vm_compute in Hrun.
    injection Hrun as <-. vm_compute. repeat split.
Defined.


(** * The first line of a segment *)

(** X15: the body of the loop takes a segment apart at its first line
    feed and nowhere else.  With a line feed in the segment, the first
    part has no line feed and the two parts, put together around a line
    feed, are the segment; without one, the first part is the whole
    segment and there is no second part. *)
Theorem splitFirstLine_parts (s : string) :
  match splitFirstLine s with
  | (token, Some rem) =>
      s = (token ++ String LF rem)%string
      /\ forall a b, token <> (a ++ String LF b)%string
  | (token, None) =>
      token = s /\ forall a b, s <> (a ++ String LF b)%string
  end.
Proof.
  induction s as [|c s IH]; cbn [splitFirstLine].
  - split; [reflexivity|]. intros [|x a] b; discriminate.
  - destruct (Ascii.eqb_spec c LF) as [->|Hc].
    + split; [reflexivity|]. intros [|x a] b; discriminate.
    + destruct (splitFirstLine s) as [token [rem|]].
      * destruct IH as [-> Hfree]. split; [reflexivity|].
        intros [|x a] b H; cbn [append] in H; injection H as Hx H;
          [congruence | exact (Hfree a b H)].
      * destruct IH as [-> Hfree]. split; [reflexivity|].
        intros [|x a] b H; cbn [append] in H; injection H as Hx H;
          [congruence | exact (Hfree a b H)].
Qed.

(** * A single reference *)

(** X16: [cciRef] gives the input back as its only element exactly when
    the input has no semicolon-space in it. *)
Theorem cciRef_single (input : string) :
  cciRef input = [input]
  <-> forall pre post, input <> (pre ++ "; " ++ post)%string.
Proof.
  assert (Hsep : "; " <> "") by discriminate.
  split.
  - intros Hone. apply (split_pieces input "; "); [exact Hsep|].
    fold (cciRef input). rewrite Hone. left. reflexivity.
  - intros Hfree.
    pose proof (split_concat input "; " Hsep) as Hjoin.
    fold (cciRef input) in Hjoin.
    destruct (cciRef input) as [|x [|y rest]] eqn:Hsplit.
    + exfalso. exact (splitFrom_not_nil _ _ _ _ Hsplit).
    + cbn in Hjoin. congruence.
    + exfalso. apply (Hfree x (String.concat "; " (y :: rest))).
      rewrite <- Hjoin. reflexivity.
Qed.
